(** * TicTacToeBackend: a shallow embedding of [main.py]

    The server keeps three process-wide objects ([manager], the queue
    [waiting_players] and the dict [players]) and, per connection, runs the
    loop of [websocket_endpoint].  Python objects are shared by reference:
    a [Player] is reachable from the queue, from the dict and from its
    opponent's [opponent] field, and both players of a pairing hold the same
    [GameBoard].  The embedding therefore keeps two stores (one of players,
    one of boards) addressed by allocation index, and every attribute write
    goes through the store.

    Granularity.  One inbound event is handled in one step: the handler
    runs from [receive_json] to the next [receive_json], or to the exception
    that ends the loop.  Outbound messages that were delivered are appended
    to a log.  A connection is open exactly while its loop runs, that is
    while it is in [active_connections] (a peer going away and its loop
    seeing [receive_json] raise are one event); a send to a connection whose
    loop has ended raises, and the exception leaves the handler at that
    line, with everything written before it in place.

    Inbound events are classified by what the endpoint reads of them: the
    value under "type", and then "nickname" or "cell", each of which may be
    missing or of another kind than expected.  A nickname, which the code
    never inspects, is carried as a string. *)

From stdpp Require Import gmap strings list fin_maps.
From Stdlib Require Import ZArith.

Open Scope string_scope.
Open Scope list_scope.
Open Scope nat_scope.

(** ** Exceptions and the state-and-exception monad *)

Inductive exn :=
  | InvalidMoveException   (* raised by [GameBoard.make_move] *)
  | IndexError             (* list index out of range *)
  | AttributeError         (* attribute access on [None] *)
  | KeyError               (* [data[key]] for a key the event does not have *)
  | TypeError              (* a list subscript that is no integer *)
  | SendError.             (* [send_json] or [send_text] on a closed connection *)

Inductive result (A : Type) :=
  | Ok (a : A)
  | Raise (e : exn).
Arguments Ok {A} a.
Arguments Raise {A} e.

(** Python list subscripting: indices [0 .. len-1] count from the front,
    [-len .. -1] from the back, anything else raises [IndexError]. *)
Definition py_index (len : nat) (i : Z) : option nat :=
  if bool_decide (0 ≤ i < Z.of_nat len)%Z then Some (Z.to_nat i)
  else if bool_decide (- Z.of_nat len ≤ i < 0)%Z then Some (Z.to_nat (i + Z.of_nat len))
  else None.

Definition getitem {A} (l : list A) (i : Z) : result A :=
  match py_index (length l) i with
  | Some n => match l !! n with Some x => Ok x | None => Raise IndexError end
  | None => Raise IndexError
  end.

Definition setitem {A} (l : list A) (i : Z) (x : A) : result (list A) :=
  match py_index (length l) i with
  | Some n => Ok (<[n := x]> l)
  | None => Raise IndexError
  end.

(** ** GameBoard *)

Module GameBoard.

(** [self.board = [" " for _ in range(9)]] *)
Definition init : list string := replicate 9 " ".

(** [self.winning_combinations], each three-element list as a triple. *)
Definition winning_combinations : list (Z * Z * Z) :=
  [ (0, 1, 2); (3, 4, 5); (6, 7, 8);
    (0, 3, 6); (1, 4, 7); (2, 5, 8);
    (0, 4, 8); (2, 4, 6) ]%Z.

(** [if self.board[position] != " ": raise ...; self.board[position] = symbol] *)
Definition make_move (board : list string) (position : Z) (symbol : string)
  : result (list string) :=
  match getitem board position with
  | Raise e => Raise e
  | Ok c =>
      if bool_decide (c ≠ " ") then Raise InvalidMoveException
      else setitem board position symbol
  end.

(** [return all([cell != " " for cell in self.board])] *)
Definition is_draw (board : list string) : bool :=
  forallb (λ cell, bool_decide (cell ≠ " ")) board.

(** The chained comparison [b[i] == b[j] == b[k] != " "]: operands are
    evaluated left to right and the chain stops at the first false link. *)
Definition line_won (board : list string) (c : Z * Z * Z) : result bool :=
  let '(i, j, k) := c in
  match getitem board i with
  | Raise e => Raise e
  | Ok x =>
      match getitem board j with
      | Raise e => Raise e
      | Ok y =>
          if bool_decide (x = y) then
            match getitem board k with
            | Raise e => Raise e
            | Ok z => Ok (bool_decide (y = z) && bool_decide (z ≠ " "))
            end
          else Ok false
      end
  end.

(** The [for combination in self.winning_combinations] loop: the first
    combination that passes the test returns [self.board[combination[0]]]. *)
Fixpoint scan (board : list string) (combinations : list (Z * Z * Z))
  : result (option string) :=
  match combinations with
  | [] => Ok None
  | c :: rest =>
      match line_won board c with
      | Raise e => Raise e
      | Ok true =>
          match getitem board (c.1.1) with
          | Raise e => Raise e
          | Ok s => Ok (Some s)
          end
      | Ok false => scan board rest
      end
  end.

Definition get_winner (board : list string) : result (option string) :=
  match scan board winning_combinations with
  | Raise e => Raise e
  | Ok (Some s) => Ok (Some s)
  | Ok None => if is_draw board then Ok (Some "draw") else Ok None
  end.

End GameBoard.

(** ** Players, messages and the server state *)

(** Object identities.  These are abbreviations, so that map and list
    lemmas stated over [nat] keys rewrite without unfolding. *)
Abbreviation WebSocket := nat.   (* identity of a connection object *)
Abbreviation PlayerRef := nat.   (* identity of a [Player] object *)
Abbreviation BoardRef := nat.     (* identity of a [GameBoard] object *)

Record Player := mkPlayer {
  websocket : WebSocket;
  nickname : string;
  symbol : string;
  is_my_turn : bool;
  opponent : option PlayerRef;
  game_board : option BoardRef
}.

Instance Player_inhabited : Inhabited Player :=
  populate (mkPlayer 0 "" "" false None None).

Definition set_symbol (v : string) (p : Player) : Player :=
  mkPlayer (websocket p) (nickname p) v (is_my_turn p) (opponent p) (game_board p).
Definition set_is_my_turn (v : bool) (p : Player) : Player :=
  mkPlayer (websocket p) (nickname p) (symbol p) v (opponent p) (game_board p).
Definition set_opponent (v : option PlayerRef) (p : Player) : Player :=
  mkPlayer (websocket p) (nickname p) (symbol p) (is_my_turn p) v (game_board p).
Definition set_game_board (v : option BoardRef) (p : Player) : Player :=
  mkPlayer (websocket p) (nickname p) (symbol p) (is_my_turn p) (opponent p) v.

(** What [data["cell"]] can be, as far as the [move] branch can tell. *)
Inductive CellArg :=
  | CellInt (z : Z)        (* an integer *)
  | CellBool (b : bool)    (* [true] or [false]: as a subscript, 1 or 0 *)
  | CellAbsent             (* no "cell" key: [data["cell"]] raises [KeyError] *)
  | CellOther.             (* null, a string, a non-integer number, an array, an
                              object: [self.board[position]] raises [TypeError] *)

(** What [ConnectionManager] puts on the wire. *)
Inductive Message :=
  | MText (text : string)                          (* [send_message] *)
  | MError (message : string)                      (* [send_error] *)
  | MStart (symbol opponent_nickname : string)     (* [send_start] *)
  | MTurn (value : bool)                           (* [send_turn] *)
  | MMove (cell : Z) (symbol : string)             (* [send_move], integer cell *)
  | MGameover (result : string)                    (* [send_gameover] *)
  | MMoveAs (cell : CellArg) (symbol : string).    (* [send_move], any other cell *)

(** What [receive_json] hands to the loop, by what the loop body reads of
    it.  [Join], [Move] and [Other] are the events of the protocol; in
    [Other], [type] is any value but "join" and "move", as the text that
    string formatting gives for it.  The rest are the events that lack a key
    or carry a cell that is no integer. *)
Inductive Data :=
  | Join (nickname : string)
  | Move (cell : Z)
  | Other (type : string)
  | MoveBool (cell : bool)   (* type "move", [cell] a boolean *)
  | MoveNoCell               (* type "move", no "cell" key *)
  | MoveBadCell              (* type "move", [cell] of a kind that is no subscript *)
  | JoinNoNickname           (* type "join", no "nickname" key *)
  | NoType.                  (* no "type" key ([KeyError]), or no object at all
                                ([TypeError], handled alike): [data["type"]] raises *)

(** The [move] event as [send_move] builds it: [data["cell"]] is passed on
    as it came. *)
Definition move_event (move : CellArg) (symbol : string) : Message :=
  match move with
  | CellInt z => MMove z symbol
  | _ => MMoveAs move symbol
  end.

Record State := mkState {
  active_connections : gset WebSocket;        (* [manager.active_connections] *)
  waiting_players : list PlayerRef;           (* the module-level queue, head first *)
  players : gmap WebSocket PlayerRef;         (* the module-level dict *)
  player_store : list Player;                 (* every [Player] ever constructed *)
  board_store : list (list string);           (* every [GameBoard] ever constructed *)
  sent : list (WebSocket * Message)           (* outbound log, oldest first *)
}.

Definition initial : State := mkState ∅ [] ∅ [] [] [].

(** Handler code runs in a monad that threads the state and may raise;
    writes made before a raise stay in the state. *)
Definition M (A : Type) : Type := State → State * result A.

Definition ret {A} (a : A) : M A := λ s, (s, Ok a).
Definition raise {A} (e : exn) : M A := λ s, (s, Raise e).
Definition bind {A B} (m : M A) (k : A → M B) : M B :=
  λ s, match m s with
       | (s', Ok a) => k a s'
       | (s', Raise e) => (s', Raise e)
       end.
Definition gets {A} (f : State → A) : M A := λ s, (s, Ok (f s)).
Definition modify (f : State → State) : M unit := λ s, (f s, Ok tt).

Declare Scope handler_scope.
Delimit Scope handler_scope with M.
Notation "x <- m ;; k" := (bind m (λ x, k))
  (at level 100, m at next level, k at level 200, right associativity, only parsing)
  : handler_scope.
Notation "m ;; k" := (bind m (λ _, k))
  (at level 100, k at level 200, right associativity, only parsing)
  : handler_scope.
Bind Scope handler_scope with M.
Open Scope handler_scope.

(** ** ConnectionManager *)

(** [await websocket.send_json(...)] (or [send_text]): the message goes out
    if the connection is open, and the call raises if it is closed. *)
Definition send (ws : WebSocket) (m : Message) : M unit :=
  λ s, if decide (ws ∈ active_connections s)
       then (mkState (active_connections s) (waiting_players s) (players s)
                     (player_store s) (board_store s) (sent s ++ [(ws, m)]), Ok tt)
       else (s, Raise SendError).

Module ConnectionManager.

(** [await websocket.accept(); self.active_connections.add(websocket)] *)
Definition connect (ws : WebSocket) (s : State) : State :=
  mkState ({[ws]} ∪ active_connections s) (waiting_players s) (players s)
          (player_store s) (board_store s) (sent s).

(** [self.active_connections.remove(websocket)] *)
Definition disconnect (ws : WebSocket) (s : State) : State :=
  mkState (active_connections s ∖ {[ws]}) (waiting_players s) (players s)
          (player_store s) (board_store s) (sent s).

Definition send_message (ws : WebSocket) (text : string) : M unit :=
  send ws (MText text).
Definition send_error (ws : WebSocket) (message : string) : M unit :=
  send ws (MError message).
Definition send_start (ws : WebSocket) (symbol opponent_nickname : string) : M unit :=
  send ws (MStart symbol opponent_nickname).
Definition send_turn (ws : WebSocket) (value : bool) : M unit :=
  send ws (MTurn value).
Definition send_move (ws : WebSocket) (move : CellArg) (symbol : string) : M unit :=
  send ws (move_event move symbol).
Definition send_gameover (ws : WebSocket) (result : string) : M unit :=
  send ws (MGameover result).

End ConnectionManager.
Import ConnectionManager.

(** ** Object store primitives *)

(** [Player(websocket, nickname)]: a new object with the dataclass defaults. *)
Definition new_Player (ws : WebSocket) (nick : string) : M PlayerRef :=
  λ s, (mkState (active_connections s) (waiting_players s) (players s)
                (player_store s ++ [mkPlayer ws nick "" false None None])
                (board_store s) (sent s),
        Ok (length (player_store s))).

(** [GameBoard()] *)
Definition new_GameBoard : M BoardRef :=
  λ s, (mkState (active_connections s) (waiting_players s) (players s)
                (player_store s) (board_store s ++ [GameBoard.init]) (sent s),
        Ok (length (board_store s))).

(** Following a reference.  Python has no dangling reference; the default
    object the total lookup falls back on is never read in a state the
    server can reach. *)
Definition deref {A} `{Inhabited A} (store : list A) (r : nat) : A := store !!! r.
Arguments deref : simpl never.

(** Reading [p.attr] and writing [p.attr = v] on a player object. *)
Definition attr {A} (p : PlayerRef) (f : Player → A) : M A :=
  gets (λ s, f (deref (player_store s) p)).

Definition setattr (p : PlayerRef) (f : Player → Player) : M unit :=
  modify (λ s, mkState (active_connections s) (waiting_players s) (players s)
                       (alter f p (player_store s)) (board_store s) (sent s)).

(** [waiting_players.put(p)] and [waiting_players.get()] on a non-empty queue. *)
Definition queue_put (p : PlayerRef) : M unit :=
  modify (λ s, mkState (active_connections s) (waiting_players s ++ [p]) (players s)
                       (player_store s) (board_store s) (sent s)).

Definition queue_pop (s : State) : State :=
  mkState (active_connections s) (tail (waiting_players s)) (players s)
          (player_store s) (board_store s) (sent s).

(** [players[ws] = p] *)
Definition players_set (ws : WebSocket) (p : PlayerRef) : M unit :=
  modify (λ s, mkState (active_connections s) (waiting_players s) (<[ws := p]> (players s))
                       (player_store s) (board_store s) (sent s)).

(** Replace the cells of a board object. *)
Definition board_write (b : BoardRef) (cells : list string) : M unit :=
  modify (λ s, mkState (active_connections s) (waiting_players s) (players s)
                       (player_store s) (<[b := cells]> (board_store s)) (sent s)).

(** [make_move(data["cell"], symbol)] for whatever the event holds under
    "cell": evaluating the argument raises if the key is missing, and the
    first subscript in [make_move] raises if the value is no integer. *)
Definition make_move_with (board : list string) (cell : CellArg) (symbol : string)
  : result (list string) :=
  match cell with
  | CellInt z => GameBoard.make_move board z symbol
  | CellBool b => GameBoard.make_move board (Z.b2z b) symbol
  | CellAbsent => Raise KeyError
  | CellOther => Raise TypeError
  end.

(** The subscript a cell value stands for, if it is one. *)
Definition cell_position (cell : CellArg) : option Z :=
  match cell with
  | CellInt z => Some z
  | CellBool b => Some (Z.b2z b)
  | CellAbsent | CellOther => None
  end.

(** The value under "cell" of an event of type "move". *)
Definition move_cell (data : Data) : option CellArg :=
  match data with
  | Move z => Some (CellInt z)
  | MoveBool b => Some (CellBool b)
  | MoveNoCell => Some CellAbsent
  | MoveBadCell => Some CellOther
  | Join _ | JoinNoNickname | Other _ | NoType => None
  end.

(** [player.game_board.make_move(data["cell"], symbol)] on the shared object. *)
Definition board_make_move (b : BoardRef) (cell : CellArg) (symbol : string) : M unit :=
  cells <- gets (λ s, deref (board_store s) b) ;;
  match make_move_with cells cell symbol with
  | Raise e => raise e
  | Ok cells' => board_write b cells'
  end.

Definition board_get_winner (b : BoardRef) : M (option string) :=
  cells <- gets (λ s, deref (board_store s) b) ;;
  match GameBoard.get_winner cells with
  | Raise e => raise e
  | Ok w => ret w
  end.

(** Truth value of an [Optional[str]] in [if winner:]. *)
Definition truthy (w : option string) : bool :=
  match w with
  | Some s => bool_decide (s ≠ "")
  | None => false
  end.

(** ** The endpoint *)

(** The [join] branch of [websocket_endpoint]. *)
Definition on_join (ws : WebSocket) (nick : string) : M unit :=
  new_player <- new_Player ws nick ;;
  queue <- gets waiting_players ;;
  match queue with
  | opponent :: _ =>
      modify queue_pop ;;
      setattr opponent (set_opponent (Some new_player)) ;;
      setattr new_player (set_opponent (Some opponent)) ;;
      setattr new_player (set_symbol "X") ;;
      setattr opponent (set_symbol "O") ;;
      new_game_board <- new_GameBoard ;;
      setattr new_player (set_game_board (Some new_game_board)) ;;
      setattr opponent (set_game_board (Some new_game_board)) ;;
      players_set ws new_player ;;
      opponent_ws <- attr opponent websocket ;;
      players_set opponent_ws opponent ;;
      new_ws <- attr new_player websocket ;;
      new_symbol <- attr new_player symbol ;;
      opponent_nick <- attr opponent nickname ;;
      send_start new_ws new_symbol opponent_nick ;;
      opponent_symbol <- attr opponent symbol ;;
      new_nick <- attr new_player nickname ;;
      send_start opponent_ws opponent_symbol new_nick ;;
      setattr new_player (set_is_my_turn true) ;;
      send_turn ws true
  | [] => queue_put new_player
  end.

(** The [move] branch.  [players.get(websocket)] may be [None], and then
    [player.opponent] raises; likewise [opponent.websocket] when the
    opponent is [None]. *)
Definition on_move (ws : WebSocket) (cell : CellArg) : M unit :=
  found <- gets (λ s, players s !! ws) ;;
  match found with
  | None => raise AttributeError
  | Some player =>
      opponent <- attr player opponent ;;
      game_board <- attr player game_board ;;
      turn <- attr player is_my_turn ;;
      if negb turn then send_error ws "Not your turn"
      else
        match game_board with
        | None => raise AttributeError
        | Some board =>
            player_symbol <- attr player symbol ;;
            λ s, match board_make_move board cell player_symbol s with
                 | (s', Raise InvalidMoveException) => send_error ws "Invalid move" s'
                 | (s', Raise e) => (s', Raise e)
                 | (s', Ok _) =>
                     (player_ws <- attr player websocket ;;
                      send_move player_ws cell player_symbol ;;
                      match opponent with
                      | None => raise AttributeError
                      | Some opponent =>
                          opponent_ws <- attr opponent websocket ;;
                          send_move opponent_ws cell player_symbol ;;
                          winner <- board_get_winner board ;;
                          if truthy winner then
                            send_gameover player_ws (default "" winner) ;;
                            send_gameover opponent_ws (default "" winner)
                          else
                            setattr player (set_is_my_turn false) ;;
                            setattr opponent (set_is_my_turn true) ;;
                            player_turn <- attr player is_my_turn ;;
                            send_turn player_ws player_turn ;;
                            opponent_turn <- attr opponent is_my_turn ;;
                            send_turn opponent_ws opponent_turn
                      end) s'
                 end
        end
  end.

(** One iteration of the [while True] body for a received [data]. *)
Definition on_data (ws : WebSocket) (data : Data) : M unit :=
  match data with
  | NoType => raise KeyError
  | Join nick => on_join ws nick
  | JoinNoNickname => raise KeyError
  | Move cell => on_move ws (CellInt cell)
  | MoveBool cell => on_move ws (CellBool cell)
  | MoveNoCell => on_move ws CellAbsent
  | MoveBadCell => on_move ws CellOther
  | Other type => send_message ws ("Unknown message type:" ++ type)%string
  end.

(** What can happen on the network. *)
Inductive Input :=
  | Connect (ws : WebSocket)                 (* a client opens a connection *)
  | Receive (ws : WebSocket) (data : Data)   (* [receive_json] returns *)
  | Close (ws : WebSocket).                  (* [receive_json] raises: the peer has
                                                gone, or the frame is no JSON *)

(** One step of the server.  A connection whose loop has ended (it is no
    longer in [active_connections]) takes no further events.  Any exception
    that leaves the loop body lands in [except WebSocketDisconnect] or in
    [except Exception]; either calls [manager.disconnect] and ends the
    loop. *)
Definition step (s : State) (i : Input) : State :=
  match i with
  | Connect ws => connect ws s
  | Receive ws data =>
      if decide (ws ∈ active_connections s) then
        match on_data ws data s with
        | (s', Ok _) => s'
        | (s', Raise _) => disconnect ws s'
        end
      else s
  | Close ws =>
      if decide (ws ∈ active_connections s) then disconnect ws s else s
  end.

Definition run (s : State) (inputs : list Input) : State :=
  foldl step s inputs.

Definition reachable (s : State) : Prop :=
  ∃ inputs, s = run initial inputs.

(** ** Specification-side vocabulary for the board *)

(** The eight lines of the grid, built by rows, columns and diagonals. *)
Definition rows : list (Z * Z * Z) :=
  (λ r, (3 * r, 3 * r + 1, 3 * r + 2)%Z) <$> [0; 1; 2]%Z.
Definition columns : list (Z * Z * Z) :=
  (λ c, (c, c + 3, c + 6)%Z) <$> [0; 1; 2]%Z.
Definition diagonals : list (Z * Z * Z) := [(0, 4, 8); (2, 4, 6)]%Z.

(** The three cells of triple [t] all hold the symbol [s], which is not blank. *)
Definition triple_owned (board : list string) (t : Z * Z * Z) (s : string) : Prop :=
  s ≠ " " ∧
  board !! Z.to_nat t.1.1 = Some s ∧
  board !! Z.to_nat t.1.2 = Some s ∧
  board !! Z.to_nat t.2 = Some s.

Definition triple_won (board : list string) (t : Z * Z * Z) : Prop :=
  ∃ s, triple_owned board t s.

Definition all_occupied (board : list string) : Prop :=
  ∀ i c, board !! i = Some c → c ≠ " ".

Definition triple_in_range (board : list string) (t : Z * Z * Z) : Prop :=
  (0 ≤ t.1.1 < Z.of_nat (length board))%Z ∧
  (0 ≤ t.1.2 < Z.of_nat (length board))%Z ∧
  (0 ≤ t.2 < Z.of_nat (length board))%Z.

(** ** States the handlers produce *)

Definition log_sent (msgs : list (WebSocket * Message)) (s : State) : State :=
  mkState (active_connections s) (waiting_players s) (players s)
          (player_store s) (board_store s) (sent s ++ msgs).

Definition with_board (b : BoardRef) (cells : list string) (s : State) : State :=
  mkState (active_connections s) (waiting_players s) (players s)
          (player_store s) (<[b := cells]> (board_store s)) (sent s).

Definition with_turns (p q : PlayerRef) (s : State) : State :=
  mkState (active_connections s) (waiting_players s) (players s)
          (alter (set_is_my_turn true) q (alter (set_is_my_turn false) p (player_store s)))
          (board_store s) (sent s).

(** The state after a [join] that finds the queue empty. *)
Definition parked (ws : WebSocket) (nick : string) (s : State) : State :=
  mkState (active_connections s) (waiting_players s ++ [length (player_store s)])
          (players s)
          (player_store s ++ [mkPlayer ws nick "" false None None])
          (board_store s) (sent s).

(** What a [join] that takes [o] (whose record is [O]) out of the queue
    writes before it sends anything (lines 122 to 134), with the joiner's
    turn flag at [turn]. *)
Definition matched (turn : bool) (ws : WebSocket) (nick : string) (o : PlayerRef)
    (O : Player) (s : State) : State :=
  let n := length (player_store s) in
  let b := length (board_store s) in
  mkState (active_connections s) (tail (waiting_players s))
          (<[websocket O := o]> (<[ws := n]> (players s)))
          (<[o := mkPlayer (websocket O) (nickname O) "O" (is_my_turn O) (Some n) (Some b)]>
             (player_store s)
           ++ [mkPlayer ws nick "X" turn (Some o) (Some b)])
          (board_store s ++ [GameBoard.init])
          (sent s).

(** The state after such a [join] when both sockets are open. *)
Definition paired (ws : WebSocket) (nick : string) (o : PlayerRef) (O : Player)
    (s : State) : State :=
  log_sent [(ws, MStart "X" (nickname O)); (websocket O, MStart "O" nick); (ws, MTurn true)]
    (matched true ws nick o O s).

(** The state in which the handler is left when the waiting player's socket
    is closed: the second [send_start] raises, before the turn flag is set. *)
Definition half_paired (ws : WebSocket) (nick : string) (o : PlayerRef) (O : Player)
    (s : State) : State :=
  log_sent [(ws, MStart "X" (nickname O))] (matched false ws nick o O s).

(** ** Predicates on states *)

(** The facts under which the handler gets past [make_move]. *)
Definition accepts (ws : WebSocket) (cell : CellArg) (p q : PlayerRef) (P Q : Player)
    (b : BoardRef) (cells cells' : list string) (s : State) : Prop :=
  players s !! ws = Some p ∧
  player_store s !! p = Some P ∧
  is_my_turn P = true ∧
  game_board P = Some b ∧
  board_store s !! b = Some cells ∧
  make_move_with cells cell (symbol P) = Ok cells' ∧
  opponent P = Some q ∧
  player_store s !! q = Some Q.

(** What the two flag writes do to the record at index [i]. *)
Definition retimed (p q i : PlayerRef) (X : Player) : Player :=
  if decide (i = q) then set_is_my_turn true X
  else if decide (i = p) then set_is_my_turn false X
  else X.

(** The three strings a cell can hold. *)
Definition cell_ok (c : string) : Prop := c = " " ∨ c = "X" ∨ c = "O".

Definition mark_ok (c : string) : Prop := c = "X" ∨ c = "O".

(** What every state the server can reach satisfies.  None of it mentions
    the connection set or the outbound log. *)
Record wf (s : State) : Prop := {
  (* a queued player is a live object that has not been paired *)
  wf_queue : ∀ w, w ∈ waiting_players s →
    ∃ W, player_store s !! w = Some W ∧ opponent W = None;
  (* the queue never holds more than one player *)
  wf_queue_len : length (waiting_players s) ≤ 1;
  (* an unpaired player has no turn and no board *)
  wf_single : ∀ p P, player_store s !! p = Some P → opponent P = None →
    is_my_turn P = false ∧ game_board P = None;
  (* pairing is symmetric, the two share one board, hold different marks
     and do not both have the turn *)
  wf_pair : ∀ p P q, player_store s !! p = Some P → opponent P = Some q →
    p ≠ q ∧
    ∃ Q b, player_store s !! q = Some Q ∧ opponent Q = Some p ∧
           (is_my_turn P = true → is_my_turn Q = false) ∧
           game_board P = Some b ∧ game_board Q = Some b ∧
           b < length (board_store s) ∧
           mark_ok (symbol P) ∧ mark_ok (symbol Q) ∧ symbol P ≠ symbol Q;
  (* the dict maps a connection to a paired player object of that connection *)
  wf_players : ∀ ws p, players s !! ws = Some p →
    ∃ P, player_store s !! p = Some P ∧ websocket P = ws ∧ is_Some (opponent P);
  (* every board has nine cells, each blank or a mark *)
  wf_boards : ∀ b cells, board_store s !! b = Some cells →
    length cells = 9 ∧ Forall cell_ok cells;
  (* a board belongs to one pairing only *)
  wf_share : ∀ p P p' P' b,
    player_store s !! p = Some P → player_store s !! p' = Some P' →
    game_board P = Some b → game_board P' = Some b →
    p' = p ∨ opponent P = Some p'
}.

(** Everything the [move] branch can do in a well-formed state, for a
    connection whose loop runs. *)
Inductive move_outcome (s : State) (ws : WebSocket) (cell : CellArg)
  : State * result unit → Prop :=
  | mo_unregistered :
      players s !! ws = None →
      move_outcome s ws cell (s, Raise AttributeError)
  | mo_not_turn p P :
      players s !! ws = Some p → player_store s !! p = Some P →
      is_my_turn P = false →
      move_outcome s ws cell (log_sent [(ws, MError "Not your turn")] s, Ok tt)
  | mo_invalid p P b cells :
      players s !! ws = Some p → player_store s !! p = Some P →
      is_my_turn P = true → game_board P = Some b →
      board_store s !! b = Some cells →
      make_move_with cells cell (symbol P) = Raise InvalidMoveException →
      move_outcome s ws cell (log_sent [(ws, MError "Invalid move")] s, Ok tt)
  | mo_escapes p P b cells e :
      players s !! ws = Some p → player_store s !! p = Some P →
      is_my_turn P = true → game_board P = Some b →
      board_store s !! b = Some cells →
      make_move_with cells cell (symbol P) = Raise e → e ≠ InvalidMoveException →
      move_outcome s ws cell (s, Raise e)
  | mo_unheard p q P Q b cells cells' :
      accepts ws cell p q P Q b cells cells' s →
      p ≠ q → websocket P = ws →
      websocket Q ∉ active_connections s →
      move_outcome s ws cell
        (log_sent [(ws, move_event cell (symbol P))] (with_board b cells' s),
         Raise SendError)
  | mo_gameover p q P Q b cells cells' w :
      accepts ws cell p q P Q b cells cells' s →
      p ≠ q → websocket P = ws →
      websocket Q ∈ active_connections s →
      GameBoard.get_winner cells' = Ok w → truthy w = true →
      move_outcome s ws cell
        (log_sent [(ws, move_event cell (symbol P));
                   (websocket Q, move_event cell (symbol P));
                   (ws, MGameover (default "" w));
                   (websocket Q, MGameover (default "" w))]
           (with_board b cells' s), Ok tt)
  | mo_continue p q P Q b cells cells' w :
      accepts ws cell p q P Q b cells cells' s →
      p ≠ q → websocket P = ws →
      websocket Q ∈ active_connections s →
      GameBoard.get_winner cells' = Ok w → truthy w = false →
      move_outcome s ws cell
        (log_sent [(ws, move_event cell (symbol P));
                   (websocket Q, move_event cell (symbol P));
                   (ws, MTurn false); (websocket Q, MTurn true)]
           (with_turns p q (with_board b cells' s)), Ok tt).

(** The condition under which the endpoint sends [gameover] after a move:
    [get_winner] answers something that counts as true. *)
Definition finished (cells : list string) : Prop :=
  ∃ w, GameBoard.get_winner cells = Ok w ∧ truthy w = true.

(** [frozen b cells s s']: board [b], finished with [cells] in [s], is still
    finished in [s'] (and literally the same if it was full), and every
    player on it has kept its turn flag. *)
Definition frozen (b : BoardRef) (cells : list string) (s s' : State) : Prop :=
  (∃ cells', board_store s' !! b = Some cells' ∧ finished cells' ∧
             (GameBoard.is_draw cells = true → cells' = cells)) ∧
  (∀ p P, player_store s !! p = Some P → game_board P = Some b →
          ∃ P', player_store s' !! p = Some P' ∧ game_board P' = Some b ∧
                is_my_turn P' = is_my_turn P).

(** ** Scenarios *)

(** alice connects and joins; nobody else is there. *)
Definition alice_waits : State :=
  run initial [Connect 1; Receive 1 (Join "alice")].

(** bob connects and joins while alice waits. *)
Definition match_started : State :=
  run alice_waits [Connect 2; Receive 2 (Join "bob")].


(** A client that has connected and sent nothing yet. *)
Definition never_joined : State := run initial [Connect 1].

(** Two clients that have connected and sent nothing yet. *)
Definition two_connected : State := run initial [Connect 1; Connect 2].

(** A match in which alice's connection has closed. *)
Definition alice_gone : State := step match_started (Close 1).

(** alice waits, then alice's connection closes; bob joins afterwards. *)
Definition alice_left : State := run alice_waits [Close 1].
Definition bob_after_alice_left : State :=
  run alice_left [Connect 2; Receive 2 (Join "bob")].

(** X (bob) takes the top row: X:0, O:3, X:1, O:4, X:2. *)
Definition x_wins : State :=
  run match_started
    [Receive 2 (Move 0); Receive 1 (Move 3); Receive 2 (Move 1);
     Receive 1 (Move 4); Receive 2 (Move 2)].

(** ** Vocabulary for the properties of single operations and of runs *)

(** How many cells of a board hold [sym]. *)
Fixpoint count_mark (sym : string) (cells : list string) : nat :=
  match cells with
  | [] => 0
  | c :: rest => (if bool_decide (c = sym) then 1 else 0) + count_mark sym rest
  end.

(** Two states that differ at most in the connection set. *)
Definition same_but_active (s s' : State) : Prop :=
  waiting_players s' = waiting_players s ∧
  players s' = players s ∧
  player_store s' = player_store s ∧
  board_store s' = board_store s ∧
  sent s' = sent s.

(** The one-message answers of the endpoint that change nothing else. *)
Definition reply_ok (m : Message) : Prop :=
  m = MError "Not your turn" ∨ m = MError "Invalid move" ∨
  ∃ type, m = MText ("Unknown message type:" ++ type)%string.

(** The messages that go out after a move has been written and is not the
    last word: the move alone if the opponent's socket is closed, and
    otherwise the move to both and the result to both. *)
Definition write_log (ws : WebSocket) (cell : CellArg) (P Q : Player)
    (cells' : list string) (msgs : list (WebSocket * Message)) : Prop :=
  msgs = [(ws, move_event cell (symbol P))] ∨
  ∃ w, GameBoard.get_winner cells' = Ok w ∧ truthy w = true ∧
       msgs = [(ws, move_event cell (symbol P)); (websocket Q, move_event cell (symbol P));
               (ws, MGameover (default "" w)); (websocket Q, MGameover (default "" w))].

(** The messages that go out in a pairing, with the turn flag the joiner
    ends up with: all three and the flag set, or the first only and the flag
    left as it was. *)
Definition pair_log (ws : WebSocket) (nick : string) (O : Player) (turn : bool)
    (msgs : list (WebSocket * Message)) : Prop :=
  (turn = true ∧
   msgs = [(ws, MStart "X" (nickname O)); (websocket O, MStart "O" nick); (ws, MTurn true)]) ∨
  (turn = false ∧ msgs = [(ws, MStart "X" (nickname O))]).

(** Every way one step can change a well-formed state, up to the connection
    set: nothing, a one-message answer, a parked joiner, a pairing (carried
    through, or cut short by a send that raised), a move that is written
    without the turn passing (it ended the game, or the send to the opponent
    raised), a move after which the game goes on. *)
Inductive store_change (s s' : State) : Prop :=
  | sc_quiet :
      same_but_active s s' → store_change s s'
  | sc_reply ws m :
      reply_ok m → same_but_active (log_sent [(ws, m)] s) s' → store_change s s'
  | sc_park ws nick :
      waiting_players s = [] →
      same_but_active (parked ws nick s) s' → store_change s s'
  | sc_pair ws nick o O turn msgs :
      waiting_players s = [o] → player_store s !! o = Some O →
      opponent O = None → is_my_turn O = false → game_board O = None →
      pair_log ws nick O turn msgs →
      same_but_active (log_sent msgs (matched turn ws nick o O s)) s' →
      store_change s s'
  | sc_write ws cell p q P Q b cells cells' msgs :
      accepts ws cell p q P Q b cells cells' s → p ≠ q →
      write_log ws cell P Q cells' msgs →
      same_but_active (log_sent msgs (with_board b cells' s)) s' →
      store_change s s'
  | sc_toggle ws cell p q P Q b cells cells' w :
      accepts ws cell p q P Q b cells cells' s → p ≠ q →
      GameBoard.get_winner cells' = Ok w → truthy w = false →
      same_but_active
        (log_sent [(ws, move_event cell (symbol P));
                   (websocket Q, move_event cell (symbol P));
                   (ws, MTurn false); (websocket Q, MTurn true)]
           (with_turns p q (with_board b cells' s))) s' →
      store_change s s'.

(** The shapes of outbound event the endpoint can produce. *)
Definition message_ok (m : Message) : Prop :=
  match m with
  | MText text => ∃ type, text = ("Unknown message type:" ++ type)%string
  | MError message => message = "Not your turn" ∨ message = "Invalid move"
  | MStart sym _ => mark_ok sym
  | MTurn _ => True
  | MMove cell sym => (-9 ≤ cell < 9)%Z ∧ mark_ok sym
  | MGameover r => r = "X" ∨ r = "O" ∨ r = "draw"
  | MMoveAs cell sym => (∃ b, cell = CellBool b) ∧ mark_ok sym
  end.

(** Every board in the store is the board of some player. *)
Definition boards_are_owned (s : State) : Prop :=
  ∀ b, b < length (board_store s) →
    ∃ p P, player_store s !! p = Some P ∧ game_board P = Some b.

(** Whoever owns a completed triple on a board is the symbol of a player
    of that board who has the turn. *)
Definition winner_keeps_turn (s : State) : Prop :=
  ∀ b cells t sym,
    board_store s !! b = Some cells →
    t ∈ GameBoard.winning_combinations → triple_owned cells t sym →
    ∃ p P, player_store s !! p = Some P ∧ game_board P = Some b ∧
           is_my_turn P = true ∧ symbol P = sym.

(** A game played to a draw: X:0 O:1 X:2 O:4 X:3 O:5 X:7 O:6 X:8. *)
Definition drawn : State :=
  run match_started
    [Receive 2 (Move 0); Receive 1 (Move 1); Receive 2 (Move 2);
     Receive 1 (Move 4); Receive 2 (Move 3); Receive 1 (Move 5);
     Receive 2 (Move 7); Receive 1 (Move 6); Receive 2 (Move 8)].

Lemma deref_Some {A} `{Inhabited A} (store : list A) r x :
  store !! r = Some x → deref store r = x.
Proof. apply list_lookup_total_correct. Qed.

(** * Facts about list subscripting *)

Section Subscript.
Context {A : Type}.
Implicit Types (l : list A) (i : Z) (n : nat).

Lemma py_index_front len i :
  (0 ≤ i < Z.of_nat len)%Z → py_index len i = Some (Z.to_nat i).
Proof. intros H. unfold py_index. by rewrite bool_decide_eq_true_2. Qed.

Lemma py_index_back len i :
  (- Z.of_nat len ≤ i < 0)%Z → py_index len i = Some (Z.to_nat (i + Z.of_nat len)).
Proof.
  intros H. unfold py_index.
  rewrite bool_decide_eq_false_2 by lia. by rewrite bool_decide_eq_true_2.
Qed.

Lemma py_index_out len i :
  (i < - Z.of_nat len ∨ Z.of_nat len ≤ i)%Z → py_index len i = None.
Proof.
  intros H. unfold py_index.
  rewrite bool_decide_eq_false_2 by lia. by rewrite bool_decide_eq_false_2 by lia.
Qed.

Lemma py_index_lt len i n : py_index len i = Some n → n < len.
Proof.
  unfold py_index. repeat case_bool_decide; intros; simplify_eq; lia.
Qed.

Lemma getitem_front l i :
  (0 ≤ i < Z.of_nat (length l))%Z →
  ∃ x, l !! Z.to_nat i = Some x ∧ getitem l i = Ok x.
Proof.
  intros H. unfold getitem. rewrite py_index_front by done.
  destruct (lookup_lt_is_Some_2 l (Z.to_nat i)) as [x Hx]; [lia|].
  exists x. by rewrite Hx.
Qed.

Lemma getitem_out l i :
  (i < - Z.of_nat (length l) ∨ Z.of_nat (length l) ≤ i)%Z →
  getitem l i = Raise IndexError.
Proof. intros H. unfold getitem. by rewrite py_index_out. Qed.

Lemma getitem_Ok l i x :
  getitem l i = Ok x → ∃ n, py_index (length l) i = Some n ∧ l !! n = Some x.
Proof.
  unfold getitem. destruct (py_index _ _) as [n|]; [|done].
  destruct (l !! n) eqn:E; [|done]. intros [= ->]. eauto.
Qed.

Lemma setitem_length l i x l' : setitem l i x = Ok l' → length l' = length l.
Proof.
  unfold setitem. destruct (py_index _ _); [|done].
  intros [= <-]. apply length_insert.
Qed.
End Subscript.

(** * The board *)

Section Board.
Import GameBoard.
Implicit Types (board : list string) (t : Z * Z * Z).

Lemma line_won_iff board t :
  triple_in_range board t →
  ∃ b, line_won board t = Ok b ∧ (b = true ↔ triple_won board t).
Proof.
  destruct t as [[i j] k]. intros (Hi & Hj & Hk); simpl in *.
  destruct (getitem_front board i Hi) as (x & Hx & Ex).
  destruct (getitem_front board j Hj) as (y & Hy & Ey).
  destruct (getitem_front board k Hk) as (z & Hz & Ez).
  unfold line_won, triple_won, triple_owned; simpl. rewrite Ex, Ey.
  case_bool_decide as Hxy.
  - rewrite Ez. eexists; split; [done|]. subst y.
    rewrite andb_true_iff, !bool_decide_eq_true. split.
    + intros [-> Hne]. exists z. by rewrite Hx, Hz.
    + intros (s & Hs & H1 & H2 & H3). split; congruence.
  - exists false. split; [done|]. split; [done|].
    intros (s & Hs & H1 & H2 & H3). congruence.
Qed.

Lemma scan_none board combinations :
  Forall (triple_in_range board) combinations →
  (∀ u, u ∈ combinations → ¬ triple_won board u) →
  scan board combinations = Ok None.
Proof.
  induction 1 as [|c rest Hc _ IH]; intros Hnone; [done|]. simpl.
  destruct (line_won_iff board c Hc) as (b & -> & Hb).
  destruct b.
  - exfalso. apply (Hnone c); [left|]. by apply Hb.
  - apply IH. intros u Hu. apply Hnone. by right.
Qed.

Lemma scan_first board pre t post s :
  Forall (triple_in_range board) (pre ++ t :: post) →
  (∀ u, u ∈ pre → ¬ triple_won board u) →
  triple_owned board t s →
  scan board (pre ++ t :: post) = Ok (Some s).
Proof.
  induction pre as [|c pre IH]; simpl; intros Hr Hpre Hown.
  - apply Forall_cons in Hr as [Hc _].
    destruct (line_won_iff board t Hc) as (b & -> & Hb).
    assert (b = true) as -> by (apply Hb; by exists s).
    destruct Hc as [Hi _]. destruct (getitem_front board _ Hi) as (x & Hx & ->).
    destruct Hown as (_ & H1 & _). congruence.
  - apply Forall_cons in Hr as [Hc Hr].
    destruct (line_won_iff board c Hc) as (b & -> & Hb).
    destruct b.
    + exfalso. apply (Hpre c); [left|]. by apply Hb.
    + apply IH; [done| |done]. intros u Hu. apply Hpre. by right.
Qed.

Lemma is_draw_iff board : is_draw board = true ↔ all_occupied board.
Proof.
  unfold is_draw, all_occupied. rewrite forallb_forall. split.
  - intros H i c Hc. apply list_elem_of_lookup_2, list_elem_of_In, H in Hc.
    by apply bool_decide_eq_true in Hc.
  - intros H c Hc. apply list_elem_of_In, list_elem_of_lookup in Hc as [i Hi].
    apply bool_decide_eq_true. eauto.
Qed.

Lemma winning_combinations_in_range board :
  length board = 9 → Forall (triple_in_range board) winning_combinations.
Proof.
  intros Hlen. unfold winning_combinations, triple_in_range. rewrite Hlen.
  repeat constructor; simpl; lia.
Qed.
End Board.

(** C8.  [get_winner] goes through the eight fixed triples (three rows,
    three columns, two diagonals, in that order) and answers with the symbol
    of the first triple whose three cells hold one non-blank symbol; when no
    triple is won it answers ["draw"] if all nine cells are occupied and
    [None] otherwise. *)
Theorem get_winner_spec (board : list string) :
  length board = 9 →
  GameBoard.winning_combinations = (rows ++ columns ++ diagonals)%list ∧
  length GameBoard.winning_combinations = 8 ∧
  (∀ pre t post s,
      GameBoard.winning_combinations = (pre ++ t :: post)%list →
      (∀ u, u ∈ pre → ¬ triple_won board u) →
      triple_owned board t s →
      GameBoard.get_winner board = Ok (Some s)) ∧
  ((∀ u, u ∈ GameBoard.winning_combinations → ¬ triple_won board u) →
   all_occupied board →
   GameBoard.get_winner board = Ok (Some "draw")) ∧
  ((∀ u, u ∈ GameBoard.winning_combinations → ¬ triple_won board u) →
   ¬ all_occupied board →
   GameBoard.get_winner board = Ok None).
Proof.
  intros Hlen.
  pose proof (winning_combinations_in_range board Hlen) as Hr.
  split; [reflexivity|]. split; [reflexivity|]. split; [|split].
  - intros pre t post s Heq Hpre Hown. unfold GameBoard.get_winner.
    rewrite Heq in Hr |- *. by rewrite (scan_first board pre t post s).
  - intros Hnone Hfull. unfold GameBoard.get_winner.
    rewrite scan_none by done.
    by rewrite (proj2 (is_draw_iff board) Hfull).
  - intros Hnone Hfull. unfold GameBoard.get_winner.
    rewrite scan_none by done.
    destruct (GameBoard.is_draw board) eqn:E; [|done].
    by apply is_draw_iff in E.
Qed.

Lemma get_winner_spec_witness :
  let board := ["O"; "O"; " "; "X"; "X"; "X"; " "; " "; " "] in
  length board = 9 ∧
  GameBoard.get_winner board = Ok (Some "X").
Proof.
  intros board. split; [reflexivity|].
  destruct (get_winner_spec board eq_refl) as (_ & _ & Hfirst & _).
  apply (Hfirst [(0, 1, 2)%Z] (3, 4, 5)%Z
           [(6, 7, 8); (0, 3, 6); (1, 4, 7); (2, 5, 8); (0, 4, 8); (2, 4, 6)]%Z "X").
  - reflexivity.
  - intros u Hu%list_elem_of_singleton (s & Hs & H1 & H2 & H3). subst u.
    simpl in *. congruence.
  - repeat split; done.
Defined.

(** * The handlers in closed form *)

(** Unfold the handler code and the monad, reducing only the record
    projections on the way (a plain [simpl] would also start computing map
    insertions). *)
Ltac handler_unfold :=
  cbv [on_data on_move on_join board_make_move board_get_winner board_write
       send_error send_move send_gameover send_turn send_start send_message send
       players_set queue_put queue_pop setattr attr new_Player new_GameBoard
       bind gets modify ret raise log_sent with_board with_turns
       active_connections waiting_players players player_store board_store sent
       negb].

Ltac state_explicit s :=
  destruct s as [ac wq pl st bs sn];
  cbn [active_connections waiting_players players player_store board_store sent] in *.

Lemma deref_written {A} `{Inhabited A} (store : list A) r x y :
  store !! r = Some x → deref (<[r:=y]> store) r = y.
Proof.
  intros Hx. apply deref_Some, list_lookup_insert_eq. by apply lookup_lt_Some in Hx.
Qed.

(** Resolve every read the handler makes, and every test whether a socket
    is open, against the facts in scope. *)
Ltac resolve_reads :=
  repeat (cbv beta iota;
    match goal with
    | H : ?l !! ?i = Some _ |- context [deref ?l ?i] => rewrite (deref_Some _ _ _ H)
    | H : ?l !! ?i = Some _ |- context [deref (<[?i:=_]> ?l) ?i] =>
        rewrite (deref_written _ _ _ _ H)
    | H : ?x = _ |- context [match ?x with _ => _ end] => rewrite H
    | H : ?x ∈ ?X |- context [decide (?x ∈ ?X)] => rewrite (decide_True (P := x ∈ X)) by exact H
    | H : ?x ∉ ?X |- context [decide (?x ∈ ?X)] => rewrite (decide_False (P := x ∈ X)) by exact H
    end).

Lemma send_open s ws m :
  ws ∈ active_connections s → send ws m s = (log_sent [(ws, m)] s, Ok tt).
Proof. intros H. unfold send. by rewrite decide_True. Qed.

Lemma send_closed s ws m :
  ws ∉ active_connections s → send ws m s = (s, Raise SendError).
Proof. intros H. unfold send. by rewrite decide_False. Qed.

Lemma on_move_unregistered s ws cell :
  players s !! ws = None →
  on_move ws cell s = (s, Raise AttributeError).
Proof. state_explicit s. intros H. handler_unfold. by rewrite H. Qed.

Lemma on_move_not_turn s ws cell p P :
  ws ∈ active_connections s →
  players s !! ws = Some p →
  player_store s !! p = Some P →
  is_my_turn P = false →
  on_move ws cell s = (log_sent [(ws, MError "Not your turn")] s, Ok tt).
Proof.
  state_explicit s. intros Hin Hreg HP Ht. handler_unfold. by resolve_reads.
Qed.

Lemma on_move_invalid s ws cell p P b cells :
  ws ∈ active_connections s →
  players s !! ws = Some p →
  player_store s !! p = Some P →
  is_my_turn P = true →
  game_board P = Some b →
  board_store s !! b = Some cells →
  make_move_with cells cell (symbol P) = Raise InvalidMoveException →
  on_move ws cell s = (log_sent [(ws, MError "Invalid move")] s, Ok tt).
Proof.
  state_explicit s. intros Hin Hreg HP Ht Hb Hcells Hm. handler_unfold. by resolve_reads.
Qed.

Lemma on_move_escapes s ws cell p P b cells e :
  players s !! ws = Some p →
  player_store s !! p = Some P →
  is_my_turn P = true →
  game_board P = Some b →
  board_store s !! b = Some cells →
  make_move_with cells cell (symbol P) = Raise e →
  e ≠ InvalidMoveException →
  on_move ws cell s = (s, Raise e).
Proof.
  state_explicit s. intros Hreg HP Ht Hb Hcells Hm He. handler_unfold. resolve_reads.
  by destruct e.
Qed.

Section MoveAccepted.
Variables (ws : WebSocket) (cell : CellArg) (p q : PlayerRef) (P Q : Player)
          (b : BoardRef) (cells cells' : list string).

Local Ltac enter s :=
  unfold accepts; state_explicit s;
  intros (Hreg & HP & Ht & Hb & Hcells & Hm & Hopp & HQ);
  handler_unfold.

(** The opponent's socket is closed: the cell is written, the sender is
    told, and the second [send_move] raises. *)
Lemma on_move_unheard s :
  accepts ws cell p q P Q b cells cells' s →
  websocket P ∈ active_connections s →
  websocket Q ∉ active_connections s →
  on_move ws cell s =
    (log_sent [(websocket P, move_event cell (symbol P))] (with_board b cells' s),
     Raise SendError).
Proof.
  intros Hacc HinP HinQ. revert Hacc HinP HinQ. enter s. intros HinP HinQ.
  by resolve_reads.
Qed.

Lemma on_move_gameover s w :
  accepts ws cell p q P Q b cells cells' s →
  websocket P ∈ active_connections s →
  websocket Q ∈ active_connections s →
  GameBoard.get_winner cells' = Ok w →
  truthy w = true →
  on_move ws cell s =
    (log_sent [(websocket P, move_event cell (symbol P));
               (websocket Q, move_event cell (symbol P));
               (websocket P, MGameover (default "" w));
               (websocket Q, MGameover (default "" w))]
       (with_board b cells' s), Ok tt).
Proof.
  intros Hacc HinP HinQ Hw Htr. revert Hacc HinP HinQ. enter s. intros HinP HinQ.
  resolve_reads. by rewrite <- !app_assoc.
Qed.

Lemma on_move_continue s w :
  accepts ws cell p q P Q b cells cells' s →
  websocket P ∈ active_connections s →
  websocket Q ∈ active_connections s →
  p ≠ q →
  GameBoard.get_winner cells' = Ok w →
  truthy w = false →
  on_move ws cell s =
    (log_sent [(websocket P, move_event cell (symbol P));
               (websocket Q, move_event cell (symbol P));
               (websocket P, MTurn false); (websocket Q, MTurn true)]
       (with_turns p q (with_board b cells' s)), Ok tt).
Proof.
  intros Hacc HinP HinQ Hne Hw Htr. revert Hacc HinP HinQ. enter s. intros HinP HinQ.
  resolve_reads.
  erewrite !(deref_Some _ p); last first.
  { rewrite list_lookup_alter_ne by done. rewrite list_lookup_alter_eq, HP. done. }
  erewrite !(deref_Some _ q); last first.
  { rewrite list_lookup_alter_eq, list_lookup_alter_ne, HQ by done. done. }
  cbn [is_my_turn set_is_my_turn]. resolve_reads. by rewrite <- !app_assoc.
Qed.
End MoveAccepted.

Lemma on_join_wait s ws nick :
  waiting_players s = [] →
  on_join ws nick s = (parked ws nick s, Ok tt).
Proof. state_explicit s. intros H. handler_unfold. unfold parked. by rewrite H. Qed.

Section JoinStore.
Variables (st : list Player) (ws : WebSocket) (nick : string)
          (o : PlayerRef) (O : Player) (b : BoardRef).
Hypothesis HO : st !! o = Some O.

Local Abbreviation n := (length st).
Local Abbreviation O' :=
  (mkPlayer (websocket O) (nickname O) "O" (is_my_turn O) (Some n) (Some b)).
Local Abbreviation N t := (mkPlayer ws nick "X" t (Some o) (Some b)).

(** The player store once both records have their opponent, symbol and
    board, before the joiner's turn flag is raised. *)
Lemma join_store :
  alter (set_game_board (Some b)) o
    (alter (set_game_board (Some b)) n
       (alter (set_symbol "O") o
          (alter (set_symbol "X") n
             (alter (set_opponent (Some o)) n
                (alter (set_opponent (Some n)) o
                   (st ++ [mkPlayer ws nick "" false None None])%list)))))
  = (<[o := O']> st ++ [N false])%list.
Proof.
  pose proof (lookup_lt_Some _ _ _ HO) as Hlt.
  apply list_eq. intros i.
  destruct (decide (i = o)) as [->|Hio]; [|destruct (decide (i = n)) as [->|Hin]].
  - rewrite lookup_app_l by (rewrite length_insert; done).
    rewrite list_lookup_insert_eq by done.
    repeat first [ rewrite list_lookup_alter_ne by lia | rewrite list_lookup_alter_eq ].
    rewrite lookup_app_l, HO by done. done.
  - rewrite lookup_app_r by (rewrite length_insert; done).
    rewrite length_insert. replace (n - n) with 0 by lia.
    repeat first [ rewrite list_lookup_alter_ne by lia | rewrite list_lookup_alter_eq ].
    rewrite lookup_app_r by done. replace (n - n) with 0 by lia. reflexivity.
  - repeat rewrite list_lookup_alter_ne by done.
    destruct (decide (i < n)).
    + rewrite !lookup_app_l by (rewrite ?length_insert; done).
      by rewrite list_lookup_insert_ne.
    + rewrite !lookup_ge_None_2
        by (rewrite length_app, ?length_insert; simpl; lia).
      done.
Qed.

Lemma join_store_old t : deref (<[o := O']> st ++ [N t])%list o = O'.
Proof.
  pose proof (lookup_lt_Some _ _ _ HO) as Hlt.
  apply deref_Some. rewrite lookup_app_l by (by rewrite length_insert).
  by apply list_lookup_insert_eq.
Qed.

Lemma join_store_new t : deref (<[o := O']> st ++ [N t])%list n = N t.
Proof.
  apply deref_Some. rewrite lookup_app_r by (by rewrite length_insert).
  rewrite length_insert. by replace (n - n) with 0 by lia.
Qed.

Lemma join_store_turn :
  alter (set_is_my_turn true) n (<[o := O']> st ++ [N false])%list
  = (<[o := O']> st ++ [N true])%list.
Proof.
  rewrite alter_app_r_alt by (by rewrite length_insert).
  rewrite length_insert. by replace (n - n) with 0 by lia.
Qed.
End JoinStore.

Section JoinPair.
Variables (ws : WebSocket) (nick : string) (o : PlayerRef) (O : Player)
          (rest : list PlayerRef).

(** Up to the first send: the queue is popped and the store holds both
    records with opponent, symbol and board. *)
Local Ltac enter st bs HO :=
  rewrite ?(join_store st ws nick o O (length bs) HO);
  repeat (rewrite ?(join_store_old st ws nick o O (length bs) HO);
          rewrite ?(join_store_new st ws nick o O (length bs));
          cbn [websocket nickname symbol];
          progress resolve_reads);
  rewrite ?(join_store_old st ws nick o O (length bs) HO);
  rewrite ?(join_store_new st ws nick o O (length bs));
  cbn [websocket nickname symbol].

(** Both sockets are open: the pairing is carried through. *)
Lemma on_join_pair s :
  waiting_players s = o :: rest →
  player_store s !! o = Some O →
  ws ∈ active_connections s →
  websocket O ∈ active_connections s →
  on_join ws nick s = (paired ws nick o O s, Ok tt).
Proof.
  state_explicit s. intros Hq HO Hin HinO. handler_unfold. rewrite Hq. cbv beta iota.
  enter st bs HO.
  rewrite (join_store_turn st ws nick o O (length bs)).
  unfold paired, matched, log_sent.
  cbn [active_connections waiting_players players player_store board_store sent tail].
  by rewrite <- !app_assoc.
Qed.

(** The waiting player's socket is closed: everything up to line 136 has
    happened when line 137 raises. *)
Lemma on_join_half s :
  waiting_players s = o :: rest →
  player_store s !! o = Some O →
  ws ∈ active_connections s →
  websocket O ∉ active_connections s →
  on_join ws nick s = (half_paired ws nick o O s, Raise SendError).
Proof.
  state_explicit s. intros Hq HO Hin HinO. handler_unfold. rewrite Hq. cbv beta iota.
  enter st bs HO.
  unfold half_paired, matched, log_sent.
  by cbn [active_connections waiting_players players player_store board_store sent tail].
Qed.
End JoinPair.

(** * More on the board: what [make_move] and [get_winner] can answer *)

Section BoardOutcomes.
Import GameBoard.
Implicit Types (cells : list string) (position : Z) (sym : string).

Lemma make_move_Ok cells position sym cells' :
  make_move cells position sym = Ok cells' →
  ∃ n, py_index (length cells) position = Some n ∧
       cells !! n = Some " " ∧ cells' = <[n := sym]> cells.
Proof.
  unfold make_move, getitem, setitem.
  destruct (py_index _ _) as [n|]; [|done].
  destruct (cells !! n) as [c|] eqn:Hc; [|done].
  case_bool_decide as Hne; [done|]. intros [= <-].
  exists n. split; [done|]. split; [|done].
  destruct (decide (c = " ")) as [->|]; [done|]. by destruct Hne.
Qed.

Lemma make_move_occupied cells position sym n c :
  py_index (length cells) position = Some n →
  cells !! n = Some c → c ≠ " " →
  make_move cells position sym = Raise InvalidMoveException.
Proof.
  intros Hn Hc Hne. unfold make_move, getitem. rewrite Hn, Hc.
  by rewrite bool_decide_eq_true_2.
Qed.

Lemma make_move_out cells position sym :
  (position < - Z.of_nat (length cells) ∨ Z.of_nat (length cells) ≤ position)%Z →
  make_move cells position sym = Raise IndexError.
Proof. intros H. unfold make_move. by rewrite getitem_out. Qed.


Lemma make_move_length cells position sym cells' :
  make_move cells position sym = Ok cells' → length cells' = length cells.
Proof. intros (n & _ & _ & ->)%make_move_Ok. apply length_insert. Qed.



Lemma make_move_with_Ok cells cell sym cells' :
  make_move_with cells cell sym = Ok cells' →
  ∃ z n, cell_position cell = Some z ∧ py_index (length cells) z = Some n ∧
         cells !! n = Some " " ∧ cells' = <[n := sym]> cells.
Proof.
  destruct cell as [z|b| |]; simpl; try done;
    intros (n & Hn & Hc & ->)%make_move_Ok; eauto 6.
Qed.

Lemma scan_total cells combinations :
  Forall (triple_in_range cells) combinations →
  ∃ r, scan cells combinations = Ok r.
Proof.
  induction 1 as [|c rest Hc _ IH]; simpl; [eauto|].
  destruct (line_won_iff cells c Hc) as (b & -> & _).
  destruct b; [|done].
  destruct Hc as [Hi _]. destruct (getitem_front cells _ Hi) as (x & _ & ->). eauto.
Qed.

Lemma get_winner_total cells :
  length cells = 9 → ∃ w, get_winner cells = Ok w.
Proof.
  intros Hlen. unfold get_winner.
  destruct (scan_total cells winning_combinations) as [r ->];
    [by apply winning_combinations_in_range|].
  destruct r; [eauto|]. destruct (is_draw cells); eauto.
Qed.
End BoardOutcomes.

(** * Well-formed states *)

Lemma wf_initial : wf initial.
Proof.
  split; unfold initial; cbn; try done.
  - intros w Hw. by apply elem_of_nil in Hw.
  - lia.
Qed.

(** Well-formedness looks only at the queue, the dict and the two stores. *)
Lemma wf_ext s s' :
  waiting_players s' = waiting_players s →
  players s' = players s →
  player_store s' = player_store s →
  board_store s' = board_store s →
  wf s → wf s'.
Proof.
  intros Hq Hp Hs Hb [H1 H2 H3 H4 H5 H6 H7].
  split; rewrite ?Hq, ?Hp, ?Hs, ?Hb; done.
Qed.

Lemma wf_board_bound s p P b :
  wf s → player_store s !! p = Some P → game_board P = Some b →
  b < length (board_store s).
Proof.
  intros Hwf HP Hb. destruct (opponent P) as [q|] eqn:Hq.
  - destruct (wf_pair s Hwf p P q HP Hq) as (_ & Q & b' & _ & _ & _ & Hb' & _ & Hlt & _).
    congruence.
  - destruct (wf_single s Hwf p P HP Hq) as [_ Hnone]. congruence.
Qed.

(** ** Each state change keeps the state well formed *)

Lemma wf_parked s ws nick :
  wf s → waiting_players s = [] → wf (parked ws nick s).
Proof.
  intros Hwf Hq. pose proof Hwf as [H1 H2 H3 H4 H5 H6 H7].
  split; unfold parked; cbn [waiting_players players player_store board_store];
    rewrite ?Hq; cbn [app length].
  - intros w Hw%list_elem_of_singleton. subst w. eexists. split.
    + by apply list_lookup_middle.
    + done.
  - lia.
  - intros p P [[_ HP]|[_ <-]]%lookup_snoc_Some Hopp; [|done]. eauto.
  - intros p P q [[_ HP]|[_ <-]]%lookup_snoc_Some Hopp; [|done].
    destruct (H4 p P q HP Hopp) as (Hne & Q & b & HQ & Hrest).
    split; [done|]. exists Q, b. split; [|done]. by apply lookup_app_l_Some.
  - intros w p Hp. destruct (H5 w p Hp) as (P & HP & Hrest).
    exists P. split; [|done]. by apply lookup_app_l_Some.
  - done.
  - intros p P p' P' b [[_ HP]|[_ <-]]%lookup_snoc_Some
      [[_ HP']|[_ <-]]%lookup_snoc_Some Hb Hb'; try done. eauto.
Qed.

Lemma wf_with_board s b cells cells' :
  wf s → board_store s !! b = Some cells →
  length cells' = 9 → Forall cell_ok cells' →
  wf (with_board b cells' s).
Proof.
  intros Hwf Hb Hlen Hok. pose proof Hwf as [H1 H2 H3 H4 H5 H6 H7].
  split; unfold with_board; cbn [waiting_players players player_store board_store];
    try done.
  - intros p P q HP Hopp.
    destruct (H4 p P q HP Hopp) as (Hne & Q & b' & HQ & ? & ? & ? & ? & ? & ?).
    split; [done|]. exists Q, b'. rewrite length_insert. done.
  - intros b' c [(-> & -> & _)|[_ Hc]]%list_lookup_insert_Some; eauto.
Qed.

(** After a move is written, the new cells are still nine cells holding
    blanks and marks. *)
Lemma make_move_cells_ok cells cell sym cells' :
  length cells = 9 → Forall cell_ok cells → mark_ok sym →
  make_move_with cells cell sym = Ok cells' →
  length cells' = 9 ∧ Forall cell_ok cells'.
Proof.
  intros Hlen Hok Hsym (z & n & _ & _ & _ & ->)%make_move_with_Ok. split.
  - by rewrite length_insert.
  - apply Forall_insert; [done|]. right. exact Hsym.
Qed.

Section Turns.
Variables (st : list Player) (p q : PlayerRef).
Hypothesis Hne : p ≠ q.

Local Abbreviation st' :=
  (alter (set_is_my_turn true) q (alter (set_is_my_turn false) p st)).

Lemma turns_lookup i : st' !! i = retimed p q i <$> st !! i.
Proof.
  unfold retimed. rewrite !list_lookup_alter.
  repeat case_decide; subst; try done; by destruct (st !! _).
Qed.

Lemma turns_lookup_Some i X :
  st' !! i = Some X → ∃ X0, st !! i = Some X0 ∧ X = retimed p q i X0.
Proof.
  rewrite turns_lookup. destruct (st !! i) as [X0|]; [|done].
  intros [= <-]. eauto.
Qed.

Lemma retimed_opponent i X : opponent (retimed p q i X) = opponent X.
Proof. unfold retimed. by repeat case_decide. Qed.
Lemma retimed_game_board i X : game_board (retimed p q i X) = game_board X.
Proof. unfold retimed. by repeat case_decide. Qed.
Lemma retimed_symbol i X : symbol (retimed p q i X) = symbol X.
Proof. unfold retimed. by repeat case_decide. Qed.
Lemma retimed_websocket i X : websocket (retimed p q i X) = websocket X.
Proof. unfold retimed. by repeat case_decide. Qed.
Lemma retimed_other i X : i ≠ p → i ≠ q → retimed p q i X = X.
Proof. intros. unfold retimed. by repeat case_decide. Qed.
End Turns.

Lemma wf_with_turns s p P q :
  wf s → player_store s !! p = Some P → opponent P = Some q →
  wf (with_turns p q s).
Proof.
  intros Hwf HP HPq. pose proof Hwf as [H1 H2 H3 H4 H5 H6 H7].
  destruct (H4 p P q HP HPq) as (Hne & Q & bq & HQ & HQp & _).
  pose proof (turns_lookup (player_store s) p q Hne) as Hlook.
  pose proof (turns_lookup_Some (player_store s) p q Hne) as Hback.
  split; unfold with_turns; cbn [waiting_players players player_store board_store];
    try done.
  - intros w Hw. destruct (H1 w Hw) as (W & HW & HWo).
    exists (retimed p q w W). rewrite Hlook, HW. split; [done|].
    by rewrite retimed_opponent.
  - intros i X (X0 & HX0 & ->)%Hback Hopp.
    rewrite retimed_opponent in Hopp. rewrite retimed_game_board.
    rewrite retimed_other; [by apply (H3 i)| |]; intros ->; congruence.
  - intros i X j (X0 & HX0 & ->)%Hback Hopp.
    rewrite retimed_opponent in Hopp.
    destruct (H4 i X0 j HX0 Hopp) as (Hij & Y & b & HY & HYi & Hturn & Hb1 & Hb2 & Hlt & Hs).
    split; [done|]. exists (retimed p q j Y), b.
    rewrite Hlook, HY, !retimed_opponent, !retimed_game_board, !retimed_symbol.
    repeat split; try done; try tauto.
    unfold retimed. repeat case_decide; subst; simpl; try done; congruence.
  - intros w i Hi. destruct (H5 w i Hi) as (X & HX & Hw & Ho).
    exists (retimed p q i X).
    by rewrite Hlook, HX, retimed_websocket, retimed_opponent.
  - intros i X i' X' b (X0 & HX0 & ->)%Hback (X0' & HX0' & ->)%Hback.
    rewrite !retimed_game_board, retimed_opponent. eauto.
Qed.

Section PairedStore.
Variables (st : list Player) (o : PlayerRef) (O O' N : Player).
Hypothesis HO : st !! o = Some O.

Local Abbreviation st' := (<[o := O']> st ++ [N]).

Lemma paired_lookup_old : st' !! o = Some O'.
Proof.
  pose proof (lookup_lt_Some _ _ _ HO).
  rewrite lookup_app_l by (by rewrite length_insert).
  by apply list_lookup_insert_eq.
Qed.

Lemma paired_lookup_new : st' !! length st = Some N.
Proof.
  rewrite <- (length_insert st o O'). apply list_lookup_middle. done.
Qed.

Lemma paired_lookup_other i X : i ≠ o → st !! i = Some X → st' !! i = Some X.
Proof.
  intros Hne HX. apply lookup_app_l_Some.
  by rewrite list_lookup_insert_ne.
Qed.

Lemma paired_lookup_Some i X :
  st' !! i = Some X →
  (i = o ∧ X = O') ∨ (i = length st ∧ X = N) ∨
  (i ≠ o ∧ i ≠ length st ∧ st !! i = Some X).
Proof.
  intros [[Hlt HX]|[-> <-]]%lookup_snoc_Some.
  - apply list_lookup_insert_Some in HX as [(-> & -> & _)|[Hne HX]]; [by left|].
    right; right. repeat split; [done| |done].
    apply lookup_lt_Some in HX. lia.
  - right; left. by rewrite length_insert.
Qed.
End PairedStore.

Lemma wf_matched turn s ws nick o O rest :
  wf s → waiting_players s = o :: rest → player_store s !! o = Some O →
  wf (matched turn ws nick o O s).
Proof.
  intros Hwf Hq HO. pose proof Hwf as [H1 H2 H3 H4 H5 H6 H7].
  assert (opponent O = None) as HOo.
  { destruct (H1 o) as (W & HW & HWo); [rewrite Hq; left|]. congruence. }
  destruct (H3 o O HO HOo) as [HOt HOb].
  pose proof (lookup_lt_Some _ _ _ HO) as Hon.
  assert (rest = []) as ->.
  { rewrite Hq in H2. simpl in H2. destruct rest; [done|simpl in H2; lia]. }
  set (n := length (player_store s)) in *.
  set (b := length (board_store s)).
  set (O' := mkPlayer (websocket O) (nickname O) "O" (is_my_turn O) (Some n) (Some b)).
  set (N := mkPlayer ws nick "X" turn (Some o) (Some b)).
  pose proof (paired_lookup_old (player_store s) o O O' N HO) as Hold.
  pose proof (paired_lookup_new (player_store s) o O' N) as Hnew.
  pose proof (paired_lookup_other (player_store s) o O' N) as Hother.
  pose proof (paired_lookup_Some (player_store s) o O O' N HO) as Hback.
  assert (∀ i X c, player_store s !! i = Some X → game_board X = Some c → c ≠ b) as Hfresh.
  { intros i X c HX Hc. pose proof (wf_board_bound s i X c Hwf HX Hc). unfold b. lia. }
  split; unfold matched;
    cbn [waiting_players players player_store board_store]; rewrite ?Hq;
    fold n b O' N; cbn [tail].
  - intros w Hw. by apply elem_of_nil in Hw.
  - simpl. lia.
  - intros i X [[-> ->]|[[-> ->]|(Hio & Hin & HX)]]%Hback Hopp; try done. eauto.
  - intros i X j [[-> ->]|[[-> ->]|(Hio & Hin & HX)]]%Hback Hopp.
    + injection Hopp as <-. split; [lia|]. exists N, b.
      rewrite length_app. cbn. rewrite HOt.
      repeat split; try done; try lia; unfold mark_ok; auto.
    + injection Hopp as <-. split; [lia|]. exists O', b.
      rewrite length_app. cbn. rewrite HOt.
      repeat split; try done; try lia; unfold mark_ok; auto.
    + destruct (H4 i X j HX Hopp) as (Hij & Q & c & HQ & HQi & Hrest).
      split; [done|]. exists Q, c. split.
      * apply Hother; [|done]. intros ->. congruence.
      * rewrite length_app. cbn. intuition lia.
  - intros w x [[<- <-]|[Hw [[<- <-]|[Hw' Hx]]%lookup_insert_Some]]%lookup_insert_Some.
    + exists O'. split; [exact Hold|]. split; [done|]. by eexists.
    + exists N. split; [exact Hnew|]. split; [done|]. by eexists.
    + destruct (H5 w x Hx) as (P & HP & HPw & HPo).
      exists P. split; [|done]. apply Hother; [|done].
      intros ->. rewrite HO in HP. injection HP as <-. rewrite HOo in HPo.
      by destruct HPo.
  - intros c cells [[_ Hc]|[_ <-]]%lookup_snoc_Some; [eauto|].
    split; [done|]. unfold GameBoard.init. apply Forall_replicate. by left.
  - intros i X i' X' c [[-> ->]|[[-> ->]|(Hio & Hin & HX)]]%Hback
      [[-> ->]|[[-> ->]|(Hio' & Hin' & HX')]]%Hback Hc Hc'; cbn in *;
      try (by left); try (by right).
    + injection Hc as <-. by destruct (Hfresh i' X' b HX' Hc').
    + injection Hc as <-. by destruct (Hfresh i' X' b HX' Hc').
    + injection Hc' as <-. by destruct (Hfresh i X b HX Hc).
    + injection Hc' as <-. by destruct (Hfresh i X b HX Hc).
    + eauto.
Qed.

(** ** Everything the handlers can do in a well-formed state *)

Lemma on_move_outcome s ws cell :
  wf s → ws ∈ active_connections s → move_outcome s ws cell (on_move ws cell s).
Proof.
  intros Hwf Hin.
  destruct (players s !! ws) as [p|] eqn:Hreg; last first.
  { rewrite on_move_unregistered by done. by constructor. }
  destruct (wf_players s Hwf ws p Hreg) as (P & HP & HPws & [q HPq]).
  destruct (wf_pair s Hwf p P q HP HPq)
    as (Hne & Q & b & HQ & HQp & Hturn & Hb & HbQ & Hlt & HsP & HsQ & Hs).
  destruct (is_my_turn P) eqn:Ht; last first.
  { erewrite on_move_not_turn by done. by econstructor. }
  destruct (lookup_lt_is_Some_2 _ _ Hlt) as [cells Hcells].
  destruct (wf_boards s Hwf b cells Hcells) as [Hlen Hok].
  destruct (make_move_with cells cell (symbol P)) as [cells'|e] eqn:Hm; last first.
  { assert (e = InvalidMoveException ∨ e ≠ InvalidMoveException) as [->|He]
      by (destruct e; (by left) || (by right)).
    - erewrite on_move_invalid by done. by eapply mo_invalid.
    - erewrite on_move_escapes by done. by eapply mo_escapes. }
  assert (accepts ws cell p q P Q b cells cells' s) as Hacc by (by repeat split).
  assert (websocket P ∈ active_connections s) as HinP by (by rewrite HPws).
  destruct (decide (websocket Q ∈ active_connections s)) as [HinQ|HinQ]; last first.
  { erewrite on_move_unheard by done. rewrite HPws. by eapply mo_unheard. }
  destruct (make_move_cells_ok _ _ _ _ Hlen Hok HsP Hm) as [Hlen' Hok'].
  destruct (get_winner_total cells' Hlen') as [w Hw].
  destruct (truthy w) eqn:Htr.
  - erewrite on_move_gameover by done. rewrite HPws. by eapply mo_gameover.
  - erewrite on_move_continue by done. rewrite HPws. by eapply mo_continue.
Qed.

(** What a [join] does when a player waits, by whether that player's socket
    is open. *)
Lemma on_join_outcome s ws nick o rest :
  wf s → ws ∈ active_connections s → waiting_players s = o :: rest →
  ∃ O, player_store s !! o = Some O ∧ opponent O = None ∧
       is_my_turn O = false ∧ game_board O = None ∧ rest = [] ∧
       on_join ws nick s =
         if decide (websocket O ∈ active_connections s)
         then (paired ws nick o O s, Ok tt)
         else (half_paired ws nick o O s, Raise SendError).
Proof.
  intros Hwf Hin Hq.
  destruct (wf_queue s Hwf o) as (O & HO & HOo); [rewrite Hq; left|].
  destruct (wf_single s Hwf o O HO HOo) as [HOt HOb].
  pose proof (wf_queue_len s Hwf) as Hlen. rewrite Hq in Hlen.
  assert (rest = []) as -> by (destruct rest; [done|simpl in Hlen; lia]).
  exists O. repeat split; try done.
  case_decide.
  - by eapply on_join_pair.
  - by eapply on_join_half.
Qed.

(** ** Steps preserve well-formedness *)

Lemma wf_log_sent msgs s : wf s → wf (log_sent msgs s).
Proof. by apply (wf_ext s). Qed.

Lemma wf_connect ws s : wf s → wf (connect ws s).
Proof. by apply (wf_ext s). Qed.

Lemma wf_disconnect ws s : wf s → wf (disconnect ws s).
Proof. by apply (wf_ext s). Qed.

Lemma accepts_cells_ok s ws cell p q P Q b cells cells' :
  wf s → accepts ws cell p q P Q b cells cells' s →
  length cells' = 9 ∧ Forall cell_ok cells'.
Proof.
  intros Hwf (Hreg & HP & Ht & Hb & Hcells & Hm & Hopp & HQ).
  destruct (wf_boards s Hwf b cells Hcells) as [Hlen Hok].
  destruct (wf_pair s Hwf p P q HP Hopp) as (_ & ? & ? & _ & _ & _ & _ & _ & _ & HsP & _).
  by eapply make_move_cells_ok.
Qed.

Lemma wf_on_move s ws cell :
  wf s → ws ∈ active_connections s → wf (on_move ws cell s).1.
Proof.
  intros Hwf Hin.
  destruct (on_move_outcome s ws cell Hwf Hin)
    as [ | | | | p q P Q b cells cells' Hacc _ _ _
       | p q P Q b cells cells' w Hacc _ _ _ _ _
       | p q P Q b cells cells' w Hacc _ _ _ _ _ ]; cbn [fst];
    try done; try (by apply wf_log_sent).
  - destruct (accepts_cells_ok _ _ _ _ _ _ _ _ _ _ Hwf Hacc) as [Hlen Hok].
    destruct Hacc as (_ & _ & _ & _ & Hcells & _).
    apply wf_log_sent. by eapply wf_with_board.
  - destruct (accepts_cells_ok _ _ _ _ _ _ _ _ _ _ Hwf Hacc) as [Hlen Hok].
    destruct Hacc as (_ & _ & _ & _ & Hcells & _).
    apply wf_log_sent. by eapply wf_with_board.
  - destruct (accepts_cells_ok _ _ _ _ _ _ _ _ _ _ Hwf Hacc) as [Hlen Hok].
    destruct Hacc as (_ & HP & _ & _ & Hcells & _ & Hopp & _).
    apply wf_log_sent. eapply wf_with_turns; [by eapply wf_with_board|done..].
Qed.

Lemma wf_on_join s ws nick :
  wf s → ws ∈ active_connections s → wf (on_join ws nick s).1.
Proof.
  intros Hwf Hin. destruct (waiting_players s) as [|o rest] eqn:Hq.
  - rewrite on_join_wait by done. by apply wf_parked.
  - destruct (on_join_outcome s ws nick o rest Hwf Hin Hq) as (O & HO & _ & _ & _ & _ & ->).
    case_decide; cbn [fst]; apply wf_log_sent; by eapply wf_matched.
Qed.

Lemma wf_on_data s ws data :
  wf s → ws ∈ active_connections s → wf (on_data ws data s).1.
Proof.
  intros Hwf Hin. destruct data; simpl;
    try (by apply wf_on_move); try (by apply wf_on_join); try done.
  unfold send_message. rewrite send_open by done. by apply wf_log_sent.
Qed.

Lemma wf_step s i : wf s → wf (step s i).
Proof.
  intros Hwf. destruct i as [ws|ws data|ws]; simpl.
  - by apply wf_connect.
  - case_decide; [|done].
    pose proof (wf_on_data s ws data Hwf) as Hdata.
    destruct (on_data ws data s) as [s' [[]|e]]; [by apply Hdata|].
    apply wf_disconnect. by apply Hdata.
  - case_decide; [by apply wf_disconnect|done].
Qed.

Lemma wf_run inputs : ∀ s, wf s → wf (run s inputs).
Proof.
  induction inputs as [|i inputs IH]; intros s Hwf; [done|].
  simpl. apply IH. by apply wf_step.
Qed.

Lemma reachable_wf s : reachable s → wf s.
Proof. intros [inputs ->]. apply wf_run, wf_initial. Qed.

Lemma reachable_step s i : reachable s → reachable (step s i).
Proof.
  intros [inputs ->]. exists (inputs ++ [i]). unfold run. by rewrite foldl_app.
Qed.

Lemma reachable_run s inputs : reachable s → reachable (run s inputs).
Proof.
  intros [pre ->]. exists (pre ++ inputs). unfold run. by rewrite foldl_app.
Qed.

(** * One step of the server, by case *)

Lemma step_receive_ok s ws data s' :
  ws ∈ active_connections s →
  on_data ws data s = (s', Ok tt) →
  step s (Receive ws data) = s'.
Proof. intros Hin Hd. simpl. rewrite decide_True by done. by rewrite Hd. Qed.

Lemma step_receive_raise s ws data s' e :
  ws ∈ active_connections s →
  on_data ws data s = (s', Raise e) →
  step s (Receive ws data) = disconnect ws s'.
Proof. intros Hin Hd. simpl. rewrite decide_True by done. by rewrite Hd. Qed.

Lemma step_join_wait s ws nick :
  ws ∈ active_connections s → waiting_players s = [] →
  step s (Receive ws (Join nick)) = parked ws nick s.
Proof. intros Hin Hq. apply step_receive_ok; [done|]. by apply on_join_wait. Qed.

Lemma step_join_pair s ws nick o O rest :
  ws ∈ active_connections s → waiting_players s = o :: rest →
  player_store s !! o = Some O →
  websocket O ∈ active_connections s →
  step s (Receive ws (Join nick)) = paired ws nick o O s.
Proof.
  intros Hin Hq HO HinO. apply step_receive_ok; [done|]. by eapply on_join_pair.
Qed.

Lemma step_join_half s ws nick o O rest :
  ws ∈ active_connections s → waiting_players s = o :: rest →
  player_store s !! o = Some O →
  websocket O ∉ active_connections s →
  step s (Receive ws (Join nick)) = disconnect ws (half_paired ws nick o O s).
Proof.
  intros Hin Hq HO HinO. eapply step_receive_raise; [done|]. by eapply on_join_half.
Qed.

Lemma disconnect_not_active ws s : ws ∉ active_connections (disconnect ws s).
Proof.
  unfold disconnect. cbn. apply not_elem_of_difference. right.
  by apply elem_of_singleton.
Qed.

Lemma step_move_cases s ws cell :
  wf s → ws ∈ active_connections s →
  ∃ s' r, move_outcome s ws (CellInt cell) (s', r) ∧
          step s (Receive ws (Move cell))
          = match r with Ok _ => s' | Raise _ => disconnect ws s' end.
Proof.
  intros Hwf Hin. pose proof (on_move_outcome s ws (CellInt cell) Hwf Hin) as Hmo.
  cbn [step on_data]. rewrite decide_True by done.
  destruct (on_move ws (CellInt cell) s) as [s' r]. exists s', r. split; [done|].
  by destruct r as [[]|e].
Qed.

Lemma reachable_initial : reachable initial.
Proof. by exists []. Qed.

Lemma reachable_alice_waits : reachable alice_waits.
Proof. apply reachable_run, reachable_initial. Qed.

Lemma reachable_match_started : reachable match_started.
Proof. apply reachable_run, reachable_alice_waits. Qed.

Lemma reachable_x_wins : reachable x_wins.
Proof. apply reachable_run, reachable_match_started. Qed.

(** * Every step, classified *)

Lemma same_but_active_refl s : same_but_active s s.
Proof. by repeat split. Qed.

Lemma same_but_active_disconnect ws s s' :
  same_but_active s s' → same_but_active s (disconnect ws s').
Proof. intros (?&?&?&?&?). by repeat split. Qed.

Lemma move_store_change s ws cell s' r :
  move_outcome s ws cell (s', r) →
  store_change s (match r with Ok _ => s' | Raise _ => disconnect ws s' end).
Proof.
  intros Hmo.
  inversion Hmo as [ Hreg | p P Hreg HP Ht | p P b cells Hreg HP Ht Hb Hc Hm
                   | p P b cells e Hreg HP Ht Hb Hc Hm He
                   | p q P Q b cells cells' Hacc Hne Hws HinQ
                   | p q P Q b cells cells' w Hacc Hne Hws HinQ Hw Htr
                   | p q P Q b cells cells' w Hacc Hne Hws HinQ Hw Htr ]; subst s' r.
  - apply sc_quiet, same_but_active_disconnect, same_but_active_refl.
  - eapply sc_reply; [|apply same_but_active_refl]. by left.
  - eapply sc_reply; [|apply same_but_active_refl]. right; by left.
  - apply sc_quiet, same_but_active_disconnect, same_but_active_refl.
  - eapply sc_write; [done|done| |apply same_but_active_disconnect, same_but_active_refl].
    by left.
  - eapply sc_write; [done|done| |apply same_but_active_refl].
    right. by exists w.
  - eapply sc_toggle; [done..|apply same_but_active_refl].
Qed.

Lemma step_store_change s i : wf s → store_change s (step s i).
Proof.
  intros Hwf. destruct i as [ws|ws data|ws]; cbn [step].
  - apply sc_quiet. by repeat split.
  - case_decide as Hin; [|apply sc_quiet, same_but_active_refl].
    assert (∀ c, store_change s
              match on_move ws c s with
              | (s', Ok _) => s'
              | (s', Raise _) => disconnect ws s'
              end) as Hmove.
    { intros c. pose proof (on_move_outcome s ws c Hwf Hin) as Hmo.
      destruct (on_move ws c s) as [s' r].
      apply (move_store_change s ws c s' r) in Hmo. by destruct r as [[]|e]. }
    destruct data as [nick|cell|type|cell| | | | ]; cbn [on_data]; try apply Hmove.
    + destruct (waiting_players s) as [|o rest] eqn:Hq.
      * rewrite on_join_wait by done.
        eapply sc_park; [done|apply same_but_active_refl].
      * destruct (on_join_outcome s ws nick o rest Hwf Hin Hq)
          as (O & HO & HOo & HOt & HOb & -> & ->).
        case_decide.
        -- eapply (sc_pair s _ ws nick o O true); [done..| |apply same_but_active_refl].
           by left.
        -- eapply (sc_pair s _ ws nick o O false);
             [done..| |apply same_but_active_disconnect, same_but_active_refl].
           by right.
    + unfold send_message. rewrite send_open by done.
      eapply sc_reply; [|apply same_but_active_refl]. right; right. by eexists.
    + apply sc_quiet, same_but_active_disconnect, same_but_active_refl.
    + apply sc_quiet, same_but_active_disconnect, same_but_active_refl.
  - case_decide; apply sc_quiet; [by repeat split|apply same_but_active_refl].
Qed.

(** What a classified step does to the dict: entries are added, never
    removed. *)
Lemma store_change_players s s' w :
  store_change s s' → is_Some (players s !! w) → is_Some (players s' !! w).
Proof.
  intros Hch Hw.
  destruct Hch as [ (_&Hp&_)
                  | ws m _ (_&Hp&_)
                  | ws nick Hq (_&Hp&_)
                  | ws nick o O turn msgs Hq HO HOo _ _ _ (_&Hp&_)
                  | ws cell p0 q P0 Q b cells cells' msgs _ _ _ (_&Hp&_)
                  | ws cell p0 q P0 Q b cells cells' w0 _ _ _ _ (_&Hp&_) ];
    rewrite Hp; cbn [players log_sent matched with_board with_turns parked]; try done.
  rewrite !lookup_insert_is_Some.
  destruct (decide (websocket O = w)); [by left|right].
  split; [done|]. destruct (decide (ws = w)); [by left|right]. done.
Qed.

(** * Properties of the protocol *)

(** C1 (as the code has it).  When a client joins while a player waits, the
    player taken from the queue gets symbol O and the newly joined player
    gets symbol X, and the two share a new blank board.  If the waiting
    player's connection is open, X's turn flag is set and O's is not, each
    is sent a [start] event with their own symbol and the other's nickname,
    and the newly joined (X) player alone is sent [turn] with value true.
    If that connection is closed, the joiner is sent its [start] event, the
    send to the waiting player raises, no turn flag is set, no [turn] event
    is sent and the joiner's loop ends. *)
Theorem join_pairs_newcomer_as_X s ws nick o rest :
  reachable s →
  ws ∈ active_connections s →
  waiting_players s = o :: rest →
  ∃ O, player_store s !! o = Some O ∧
    let s' := step s (Receive ws (Join nick)) in
    let n := length (player_store s) in
    let b := length (board_store s) in
    player_store s' !! o =
      Some (mkPlayer (websocket O) (nickname O) "O" false (Some n) (Some b)) ∧
    board_store s' !! b = Some GameBoard.init ∧
    (websocket O ∈ active_connections s →
     player_store s' !! n = Some (mkPlayer ws nick "X" true (Some o) (Some b)) ∧
     sent s' = sent s ++ [(ws, MStart "X" (nickname O));
                          (websocket O, MStart "O" nick);
                          (ws, MTurn true)] ∧
     ws ∈ active_connections s') ∧
    (websocket O ∉ active_connections s →
     player_store s' !! n = Some (mkPlayer ws nick "X" false (Some o) (Some b)) ∧
     sent s' = sent s ++ [(ws, MStart "X" (nickname O))] ∧
     ws ∉ active_connections s').
Proof.
  intros Hwf%reachable_wf Hin Hq.
  destruct (wf_queue s Hwf o) as (O & HO & HOo); [rewrite Hq; left|].
  destruct (wf_single s Hwf o O HO HOo) as [HOt _].
  exists O. split; [done|]. cbv zeta.
  destruct (decide (websocket O ∈ active_connections s)) as [HinO|HinO].
  - rewrite (step_join_pair s ws nick o O rest) by done.
    unfold paired, matched, log_sent.
    cbn [player_store board_store sent active_connections]. rewrite HOt.
    split; [by eapply paired_lookup_old|]. split; [by apply list_lookup_middle|].
    split; [|done]. intros _. split; [apply paired_lookup_new|done].
  - rewrite (step_join_half s ws nick o O rest) by done.
    unfold half_paired, matched, log_sent, disconnect.
    cbn [player_store board_store sent active_connections]. rewrite HOt.
    split; [by eapply paired_lookup_old|]. split; [by apply list_lookup_middle|].
    split; [done|]. intros _. split; [apply paired_lookup_new|]. split; [done|].
    apply not_elem_of_difference. right. by apply elem_of_singleton.
Qed.

Lemma join_pairs_newcomer_as_X_witness :
  reachable alice_waits ∧ 2 ∈ active_connections (step alice_waits (Connect 2)) ∧
  ∃ O, player_store (step alice_waits (Connect 2)) !! 0 = Some O ∧
       nickname O = "alice" ∧
       sent match_started = [(2, MStart "X" "alice"); (1, MStart "O" "bob");
                             (2, MTurn true)].
Proof.
  split; [by eexists|]. split; [by vm_compute|].
  destruct (join_pairs_newcomer_as_X (step alice_waits (Connect 2)) 2 "bob" 0 [])
    as (O & HO & _ & _ & Hopen & _).
  - apply reachable_step. by eexists.
  - by vm_compute.
  - reflexivity.
  - exists O. split; [done|]. split; [|reflexivity].
    vm_compute in HO. by injection HO as <-.
Defined.

(** C1 as stated fails: after alice waits and bob joins, alice (the player
    who was waiting) holds O, not X, and no [turn] event goes to alice. *)
Lemma waiting_player_gets_O :
  waiting_players alice_waits = [0] ∧
  websocket <$> player_store match_started !! 0 = Some 1 ∧
  symbol <$> player_store match_started !! 0 = Some "O" ∧
  symbol <$> player_store match_started !! 0 ≠ Some "X" ∧
  symbol <$> player_store match_started !! 1 = Some "X" ∧
  sent match_started = [(2, MStart "X" "alice"); (1, MStart "O" "bob"); (2, MTurn true)].
Proof. repeat split; try reflexivity. vm_compute. discriminate. Qed.



(** C4 (as the code has it).  A [move] on a connection that has no entry in
    [players] sends nothing to anyone: reading [player.opponent] on [None]
    raises, the exception leaves the loop, and the only effect is that the
    connection is removed from [active_connections]. *)
Theorem move_unregistered_closes s ws cell :
  ws ∈ active_connections s →
  players s !! ws = None →
  step s (Receive ws (Move cell)) = disconnect ws s ∧
  sent (step s (Receive ws (Move cell))) = sent s ∧
  ws ∉ active_connections (step s (Receive ws (Move cell))).
Proof.
  intros Hin Hnone.
  rewrite (step_receive_raise s ws (Move cell) s AttributeError) by
    (try done; by apply on_move_unregistered).
  repeat split. apply disconnect_not_active.
Qed.

Lemma move_unregistered_closes_witness :
  1 ∈ active_connections alice_waits ∧ players alice_waits !! 1 = None ∧
  step alice_waits (Receive 1 (Move 0)) = disconnect 1 alice_waits.
Proof.
  split; [by vm_compute|]. split; [reflexivity|].
  apply (move_unregistered_closes alice_waits 1 0%Z); [by vm_compute|reflexivity].
Defined.

(** C4 as stated fails, both for a connection that never joined and for one
    that joined and still waits: no error event is sent and the connection
    does not stay open. *)
Lemma move_before_pairing_sends_nothing :
  sent (step never_joined (Receive 1 (Move 0))) = [] ∧
  (1 ∉ active_connections (step never_joined (Receive 1 (Move 0)))) ∧
  waiting_players alice_waits = [0] ∧
  sent (step alice_waits (Receive 1 (Move 0))) = [] ∧
  1 ∉ active_connections (step alice_waits (Receive 1 (Move 0))).
Proof.
  repeat split; try reflexivity; by vm_compute.
Qed.

(** C5 (as the code has it).  A disconnect changes [active_connections]
    only: the queue, the dict, every player and every board stay as they
    were.  So a player that waits when its connection closes is still at the
    head of the queue, and the next [join] is paired with it: both records
    get their opponent, symbol and board and both connections get their
    entry in [players]; the joiner is sent its [start] event, the send to
    the closed connection raises, no turn flag is set, and the joiner's loop
    ends. *)
Theorem close_leaves_queue s ws :
  let s' := step s (Close ws) in
  waiting_players s' = waiting_players s ∧
  players s' = players s ∧
  player_store s' = player_store s ∧
  board_store s' = board_store s ∧
  sent s' = sent s ∧
  (ws ∉ active_connections s') ∧
  ∀ ws' nick o O rest,
    reachable s → waiting_players s = o :: rest →
    player_store s !! o = Some O → websocket O = ws →
    ws' ∈ active_connections s' →
    let s'' := step s' (Receive ws' (Join nick)) in
    let n := length (player_store s) in
    let b := length (board_store s) in
    player_store s'' !! o = Some (mkPlayer ws (nickname O) "O" false (Some n) (Some b)) ∧
    player_store s'' !! n = Some (mkPlayer ws' nick "X" false (Some o) (Some b)) ∧
    players s'' = <[ws := o]> (<[ws' := n]> (players s)) ∧
    sent s'' = sent s ++ [(ws', MStart "X" (nickname O))] ∧
    ws' ∉ active_connections s''.
Proof.
  cbv zeta.
  assert (waiting_players (step s (Close ws)) = waiting_players s ∧
          players (step s (Close ws)) = players s ∧
          player_store (step s (Close ws)) = player_store s ∧
          board_store (step s (Close ws)) = board_store s ∧
          sent (step s (Close ws)) = sent s) as (Hq & Hp & Hst & Hb & Hs).
  { simpl. by case_decide. }
  assert (ws ∉ active_connections (step s (Close ws))) as Hout.
  { simpl. case_decide; [apply disconnect_not_active|done]. }
  do 6 (split; [done|]).
  intros ws' nick o O rest Hwf%reachable_wf Hwq HO Hws Hin.
  destruct (wf_queue s Hwf o) as (O1 & HO1 & HOo); [rewrite Hwq; left|].
  assert (O1 = O) as -> by congruence.
  destruct (wf_single s Hwf o O HO HOo) as [HOt _].
  rewrite (step_join_half _ ws' nick o O rest) by (rewrite ?Hq, ?Hst, ?Hws; done).
  unfold half_paired, matched, log_sent, disconnect.
  cbn [player_store players sent active_connections].
  rewrite Hst, Hb, Hp, Hs, HOt, Hws.
  split; [rewrite <- Hws; by eapply paired_lookup_old|].
  split; [apply paired_lookup_new|]. split; [done|]. split; [done|].
  apply not_elem_of_difference. right. by apply elem_of_singleton.
Qed.

Lemma close_leaves_queue_witness :
  reachable (step alice_waits (Connect 2)) ∧
  waiting_players (step alice_waits (Connect 2)) = [0] ∧
  2 ∈ active_connections (step (step alice_waits (Connect 2)) (Close 1)) ∧
  player_store (step (step (step alice_waits (Connect 2)) (Close 1))
                     (Receive 2 (Join "bob"))) !! 1
  = Some (mkPlayer 2 "bob" "X" false (Some 0) (Some 0)).
Proof.
  assert (reachable (step alice_waits (Connect 2))) as Hr
    by apply reachable_step, reachable_alice_waits.
  assert (2 ∈ active_connections (step (step alice_waits (Connect 2)) (Close 1)))
    as Hin by (by vm_compute).
  split; [exact Hr|]. split; [reflexivity|]. split; [exact Hin|].
  destruct (close_leaves_queue (step alice_waits (Connect 2)) 1)
    as (_ & _ & _ & _ & _ & _ & Hnext).
  exact (proj1 (proj2 (Hnext 2 "bob" 0 (mkPlayer 1 "alice" "" false None None) []
                         Hr eq_refl eq_refl eq_refl Hin))).
Defined.

(** C5 as stated fails: alice joins, waits and disconnects; bob then joins
    and is paired with alice's player. *)
Lemma disconnected_player_is_paired :
  (1 ∉ active_connections alice_left) ∧
  waiting_players alice_left = [0] ∧
  (websocket <$> player_store bob_after_alice_left !! 0) = Some 1 ∧
  (opponent <$> player_store bob_after_alice_left !! 0) = Some (Some 1) ∧
  (opponent <$> player_store bob_after_alice_left !! 1) = Some (Some 0) ∧
  players bob_after_alice_left !! 1 = Some 0.
Proof.
  repeat split; try reflexivity. by vm_compute.
Qed.

(** C9 (as the code has it).  [players] is a dict, so a connection has at
    most one entry.  A [join] that finds the queue empty creates no entry; a
    [join] that finds a player waiting creates two, one for the joining
    connection and one for the waiting player's connection.  A disconnect
    leaves the dict as it is, and no step ever removes an entry. *)
Theorem players_entries s ws nick :
  reachable s →
  ws ∈ active_connections s →
  (∀ p p', players s !! ws = Some p → players s !! ws = Some p' → p = p') ∧
  (waiting_players s = [] →
   players (step s (Receive ws (Join nick))) = players s) ∧
  (∀ o O rest, waiting_players s = o :: rest → player_store s !! o = Some O →
   players (step s (Receive ws (Join nick)))
   = <[websocket O := o]> (<[ws := length (player_store s)]> (players s))) ∧
  players (step s (Close ws)) = players s ∧
  (∀ i w, is_Some (players s !! w) → is_Some (players (step s i) !! w)).
Proof.
  intros Hwf%reachable_wf Hin. split; [congruence|]. split; [|split; [|split]].
  - intros Hq. by rewrite step_join_wait.
  - intros o O rest Hq HO.
    destruct (decide (websocket O ∈ active_connections s)).
    + by erewrite step_join_pair.
    + by erewrite step_join_half.
  - simpl. by case_decide.
  - intros i w. apply store_change_players. by apply step_store_change.
Qed.

Lemma players_entries_witness :
  reachable alice_waits ∧ 1 ∈ active_connections alice_waits ∧
  players (step alice_waits (Close 1)) = players alice_waits.
Proof.
  split; [by eexists|]. split; [by vm_compute|].
  destruct (players_entries alice_waits 1 "") as (_ & _ & _ & Hclose & _).
  - by eexists.
  - by vm_compute.
  - exact Hclose.
Defined.

(** C9 as stated fails: alice's [join] has been processed and there is no
    entry for alice's connection; and once alice is paired, closing that
    connection leaves the entry in place. *)
Lemma entry_not_made_on_join_nor_dropped_on_close :
  waiting_players alice_waits = [0] ∧
  players alice_waits !! 1 = None ∧
  players match_started !! 1 = Some 0 ∧
  (1 ∉ active_connections (step match_started (Close 1))) ∧
  players (step match_started (Close 1)) !! 1 = Some 0.
Proof. repeat split; try reflexivity. by vm_compute. Qed.

(** C3 (as the code has it).  A [move] whose position is 9 or more, or
    below -9, from a registered connection never changes a cell.  If it is
    not the sender's turn the answer is the error "Not your turn".  If it
    is, [make_move] raises [IndexError], which is not the exception the
    endpoint catches around the call: nothing is sent, and the loop ends
    with the connection removed from [active_connections]. *)
Theorem move_out_of_range s ws cell p P :
  reachable s →
  ws ∈ active_connections s →
  players s !! ws = Some p →
  player_store s !! p = Some P →
  (cell < -9 ∨ 9 ≤ cell)%Z →
  step s (Receive ws (Move cell)) =
    (if is_my_turn P then disconnect ws s
     else log_sent [(ws, MError "Not your turn")] s) ∧
  board_store (step s (Receive ws (Move cell))) = board_store s.
Proof.
  intros Hwf%reachable_wf Hin Hreg HP Hcell.
  destruct (is_my_turn P) eqn:Ht.
  - destruct (wf_players s Hwf ws p Hreg) as (P1 & HP1 & _ & [q HPq]).
    assert (P1 = P) as -> by congruence.
    destruct (wf_pair s Hwf p P q HP HPq) as (_ & Q & b & _ & _ & _ & Hb & _ & Hlt & _).
    destruct (lookup_lt_is_Some_2 _ _ Hlt) as [cells Hcells].
    destruct (wf_boards s Hwf b cells Hcells) as [Hlen _].
    rewrite (step_receive_raise s ws (Move cell) s IndexError); [done|done|].
    eapply (on_move_escapes s ws (CellInt cell)); try done.
    apply make_move_out. rewrite Hlen. lia.
  - rewrite (step_receive_ok s ws (Move cell) (log_sent [(ws, MError "Not your turn")] s));
      [done|done|]. by eapply (on_move_not_turn s ws (CellInt cell)).
Qed.

Lemma move_out_of_range_witness :
  reachable match_started ∧ 2 ∈ active_connections match_started ∧
  players match_started !! 2 = Some 1 ∧
  step match_started (Receive 2 (Move 9)) = disconnect 2 match_started.
Proof.
  split; [exact reachable_match_started|]. split; [by vm_compute|]. split; [reflexivity|].
  destruct (move_out_of_range match_started 2 9%Z 1
              (mkPlayer 2 "bob" "X" true (Some 0) (Some 0))) as [Hstep _].
  - exact reachable_match_started.
  - by vm_compute.
  - reflexivity.
  - reflexivity.
  - right. lia.
  - exact Hstep.
Defined.

(** C3 as stated fails twice.  Position 9 from the player on turn: no error
    event is sent and the connection does not stay open.  Position -1 from
    the player on turn: Python counts it from the end of the list, and cell
    8 is written. *)
Lemma out_of_range_move_escapes_or_writes :
  is_my_turn <$> player_store match_started !! 1 = Some true ∧
  sent (step match_started (Receive 2 (Move 9))) = sent match_started ∧
  (2 ∉ active_connections (step match_started (Receive 2 (Move 9)))) ∧
  board_store match_started = [[" "; " "; " "; " "; " "; " "; " "; " "; " "]] ∧
  board_store (step match_started (Receive 2 (Move (-1))))
  = [[" "; " "; " "; " "; " "; " "; " "; " "; "X"]].
Proof. repeat split; try reflexivity. by vm_compute. Qed.

(** C7.  In any state, a [move] from a registered connection whose player
    does not have the turn is answered with the error "Not your turn", and
    a [move] from the player on turn to a cell that is not blank is answered
    with the error "Invalid move".  In both cases the new state is the old
    one with that single event, addressed to the acting connection, added to
    the log: no board, flag or other connection is touched. *)
Theorem rejected_move_changes_nothing s ws cell p P :
  ws ∈ active_connections s →
  players s !! ws = Some p →
  player_store s !! p = Some P →
  (is_my_turn P = false →
   step s (Receive ws (Move cell)) = log_sent [(ws, MError "Not your turn")] s) ∧
  (is_my_turn P = true →
   ∀ b cells n c,
     game_board P = Some b → board_store s !! b = Some cells →
     py_index (length cells) cell = Some n → cells !! n = Some c → c ≠ " " →
     step s (Receive ws (Move cell)) = log_sent [(ws, MError "Invalid move")] s) ∧
  board_store (log_sent [(ws, MError "Invalid move")] s) = board_store s ∧
  player_store (log_sent [(ws, MError "Invalid move")] s) = player_store s.
Proof.
  intros Hin Hreg HP. split; [|split; [|done]].
  - intros Ht. apply step_receive_ok; [done|].
    by eapply (on_move_not_turn s ws (CellInt cell)).
  - intros Ht b cells n c Hb Hcells Hn Hc Hne.
    apply step_receive_ok; [done|].
    eapply (on_move_invalid s ws (CellInt cell)); try done.
    by eapply make_move_occupied.
Qed.

Lemma rejected_move_changes_nothing_witness :
  1 ∈ active_connections match_started ∧
  players match_started !! 1 = Some 0 ∧
  step match_started (Receive 1 (Move 4))
  = log_sent [(1, MError "Not your turn")] match_started.
Proof.
  split; [by vm_compute|]. split; [reflexivity|].
  destruct (rejected_move_changes_nothing match_started 1 4%Z 0
              (mkPlayer 1 "alice" "O" false (Some 1) (Some 0))) as [Hturn _].
  - by vm_compute.
  - reflexivity.
  - reflexivity.
  - by apply Hturn.
Defined.
(** * Finished boards *)

Section Finished.
Import GameBoard.
Implicit Types (cells : list string) (t : Z * Z * Z).

Lemma scan_Some_won cells combinations s :
  Forall (triple_in_range cells) combinations →
  scan cells combinations = Ok (Some s) →
  ∃ t, t ∈ combinations ∧ triple_owned cells t s.
Proof.
  induction 1 as [|c rest Hc _ IH]; simpl; [done|].
  destruct (line_won_iff cells c Hc) as (b & -> & Hb). destruct b.
  - destruct (proj1 Hb eq_refl) as (s' & Hown).
    destruct Hc as [Hi _]. destruct (getitem_front cells _ Hi) as (x & Hx & ->).
    intros [= <-]. exists c. split; [left|].
    destruct Hown as (? & H1 & ?). assert (s' = x) as -> by congruence. done.
  - intros (t & Ht & Hown)%IH. exists t. split; [by right|done].
Qed.

Lemma scan_won_Some cells combinations t :
  Forall (triple_in_range cells) combinations →
  t ∈ combinations → triple_won cells t →
  ∃ s, scan cells combinations = Ok (Some s).
Proof.
  induction 1 as [|c rest Hc Hrest IH]; intros Hin Hwon; [by apply elem_of_nil in Hin|].
  simpl. destruct (line_won_iff cells c Hc) as (b & -> & Hb). destruct b.
  - destruct Hc as [Hi _]. destruct (getitem_front cells _ Hi) as (x & _ & ->). eauto.
  - apply elem_of_cons in Hin as [->|Hin]; [|by apply IH].
    apply Hb in Hwon. done.
Qed.

Lemma cell_ok_truthy cells i s :
  Forall cell_ok cells → cells !! i = Some s → s ≠ " " → truthy (Some s) = true.
Proof.
  intros Hok Hs Hne. rewrite Forall_lookup in Hok.
  destruct (Hok i s Hs) as [->|[->| ->]]; done.
Qed.

Lemma finished_cases cells :
  length cells = 9 → finished cells →
  (∃ t, t ∈ winning_combinations ∧ triple_won cells t) ∨ is_draw cells = true.
Proof.
  intros Hlen (w & Hw & Htr). unfold get_winner in Hw.
  pose proof (winning_combinations_in_range cells Hlen) as Hr.
  destruct (scan cells winning_combinations) as [[s|]|e] eqn:Hscan; [| |done].
  - left. destruct (scan_Some_won _ _ _ Hr Hscan) as (t & Ht & Hown).
    exists t. split; [done|]. by exists s.
  - right. destruct (is_draw cells); [done|]. injection Hw as <-. done.
Qed.

Lemma finished_intro cells :
  length cells = 9 → Forall cell_ok cells →
  (∃ t, t ∈ winning_combinations ∧ triple_won cells t) ∨ is_draw cells = true →
  finished cells.
Proof.
  intros Hlen Hok Hcase. unfold finished, get_winner.
  pose proof (winning_combinations_in_range cells Hlen) as Hr.
  destruct (scan_total cells winning_combinations Hr) as [r Hscan]. rewrite Hscan.
  destruct r as [s|].
  - exists (Some s). split; [done|].
    destruct (scan_Some_won _ _ _ Hr Hscan) as (t & _ & Hne & H1 & _).
    by eapply cell_ok_truthy.
  - destruct Hcase as [(t & Ht & Hwon)|Hdraw].
    + destruct (scan_won_Some _ _ _ Hr Ht Hwon) as [s Hs]. congruence.
    + rewrite Hdraw. by exists (Some "draw").
Qed.

Lemma triple_owned_insert cells t s n sym :
  triple_owned cells t s → cells !! n = Some " " →
  triple_owned (<[n := sym]> cells) t s.
Proof.
  intros (Hne & H1 & H2 & H3) Hn.
  repeat split; [done|..]; rewrite list_lookup_insert_ne; try done;
    intros ->; congruence.
Qed.

Lemma finished_insert cells n sym :
  length cells = 9 → Forall cell_ok cells → finished cells →
  cells !! n = Some " " → mark_ok sym →
  finished (<[n := sym]> cells).
Proof.
  intros Hlen Hok Hfin Hn Hsym.
  destruct (finished_cases cells Hlen Hfin) as [(t & Ht & s & Hown)|Hdraw].
  - apply finished_intro.
    + by rewrite length_insert.
    + apply Forall_insert; [done|]. by right.
    + left. exists t. split; [done|]. exists s. by apply triple_owned_insert.
  - apply is_draw_iff in Hdraw. by destruct (Hdraw n " " Hn).
Qed.

Lemma draw_rejects_all cells cell sym cells' :
  is_draw cells = true → make_move_with cells cell sym = Ok cells' → False.
Proof.
  intros Hdraw%is_draw_iff (z & n & _ & _ & Hn & _)%make_move_with_Ok.
  by destruct (Hdraw n " " Hn).
Qed.
End Finished.

(** * What a step keeps *)

Lemma retimed_nickname p q i X : nickname (retimed p q i X) = nickname X.
Proof. unfold retimed. by repeat case_decide. Qed.

(** What a step keeps of a player record: always the websocket and the
    nickname; for a paired player also the symbol, the opponent and the
    board. *)
Lemma step_keeps_player s s' p P :
  wf s → store_change s s' → player_store s !! p = Some P →
  ∃ P', player_store s' !! p = Some P' ∧
        websocket P' = websocket P ∧ nickname P' = nickname P ∧
        (is_Some (opponent P) →
         symbol P' = symbol P ∧ opponent P' = opponent P ∧
         game_board P' = game_board P).
Proof.
  intros Hwf Hch HP.
  destruct Hch as [ (_&_&Hst&_)
                  | ws m _ (_&_&Hst&_)
                  | ws nick Hq (_&_&Hst&_)
                  | ws nick o O turn msgs Hq HO HOo _ _ _ (_&_&Hst&_)
                  | ws cell p0 q P0 Q b cells cells' msgs _ _ _ (_&_&Hst&_)
                  | ws cell p0 q P0 Q b cells cells' w _ Hne _ _ (_&_&Hst&_) ];
    rewrite Hst; cbn [player_store log_sent with_board with_turns parked matched].
  - by exists P.
  - by exists P.
  - exists P. split; [by apply lookup_app_l_Some|done].
  - destruct (decide (p = o)) as [->|Hpo].
    + assert (P = O) as -> by congruence.
      eexists. split; [by eapply paired_lookup_old|]. cbn.
      split; [done|]. split; [done|]. intros [x Hx]. congruence.
    + exists P. split; [by apply paired_lookup_other|done].
  - by exists P.
  - exists (retimed p0 q p P). rewrite turns_lookup, HP by done.
    by rewrite retimed_websocket, retimed_nickname, retimed_opponent,
      retimed_game_board, retimed_symbol.
Qed.






Section Frozen.
Variables (b : BoardRef).

Lemma frozen_same cells s s' :
  board_store s !! b = Some cells → finished cells →
  board_store s' = board_store s → player_store s' = player_store s →
  frozen b cells s s'.
Proof.
  intros Hb Hfin Hbs Hst. split.
  - exists cells. by rewrite Hbs.
  - intros p P HP HPb. exists P. by rewrite Hst.
Qed.

Lemma frozen_ext cells s s1 s2 :
  frozen b cells s s1 →
  board_store s2 = board_store s1 → player_store s2 = player_store s1 →
  frozen b cells s s2.
Proof. intros [H1 H2] Hbs Hst. split; by rewrite ?Hbs, ?Hst. Qed.

Lemma frozen_trans cells cells1 s s1 s2 :
  board_store s1 !! b = Some cells1 →
  frozen b cells s s1 → frozen b cells1 s1 s2 → frozen b cells s s2.
Proof.
  intros Hb1 [(c1 & Hc1 & Hf1 & Hd1) Hp1] [(c2 & Hc2 & Hf2 & Hd2) Hp2].
  assert (c1 = cells1) as -> by congruence. split.
  - exists c2. repeat split; [done|done|]. intros Hd.
    rewrite <- (Hd1 Hd). apply Hd2. by rewrite (Hd1 Hd).
  - intros p P HP HPb. destruct (Hp1 p P HP HPb) as (P1 & HP1 & HP1b & Ht1).
    destruct (Hp2 p P1 HP1 HP1b) as (P2 & HP2 & HP2b & Ht2).
    exists P2. repeat split; [done|done|congruence].
Qed.

(** A write to a finished board leaves it finished; a full board takes no
    write at all. *)
Lemma frozen_write cells s ws cell p q P Q b0 cells0 cells0' :
  wf s → board_store s !! b = Some cells → finished cells →
  accepts ws cell p q P Q b0 cells0 cells0' s →
  ∃ cells', <[b0 := cells0']> (board_store s) !! b = Some cells' ∧ finished cells' ∧
            (GameBoard.is_draw cells = true → cells' = cells).
Proof.
  intros Hwf Hb Hfin (_ & HP & _ & HPb & Hcells0 & Hm & Hopp & _).
  destruct (decide (b0 = b)) as [->|Hbb]; last first.
  { exists cells. by rewrite list_lookup_insert_ne. }
  assert (cells0 = cells) as -> by congruence.
  destruct (wf_boards s Hwf b cells Hb) as [Hlen Hok].
  destruct (wf_pair s Hwf p P q HP Hopp) as (_ & ? & ? & _ & _ & _ & _ & _ & _ & HsP & _).
  exists cells0'. split.
  { apply list_lookup_insert_eq. by apply lookup_lt_Some in Hb. }
  split; [|intros Hd; by destruct (draw_rejects_all _ _ _ _ Hd Hm)].
  apply make_move_with_Ok in Hm as (z & n & _ & _ & Hn & ->).
  by apply finished_insert.
Qed.

Lemma frozen_step cells s s' :
  wf s → store_change s s' →
  board_store s !! b = Some cells → finished cells →
  frozen b cells s s'.
Proof.
  intros Hwf Hch Hb Hfin.
  destruct Hch as [ (_&_&Hst&Hbs&_)
                  | ws m _ (_&_&Hst&Hbs&_)
                  | ws nick Hq (_&_&Hst&Hbs&_)
                  | ws nick o O turn msgs Hq HO HOo _ HOb _ (_&_&Hst&Hbs&_)
                  | ws cell p0 q0 P0 Q0 b0 cells0 cells0' msgs Hacc _ _ (_&_&Hst&Hbs&_)
                  | ws cell p0 q0 P0 Q0 b0 cells0 cells0' w Hacc Hne Hw Htr (_&_&Hst&Hbs&_) ].
  - by apply frozen_same.
  - by apply frozen_same.
  - eapply frozen_ext; [|exact Hbs|exact Hst]. split; [by exists cells|].
    cbn [player_store parked]. intros p P HP HPb. exists P.
    split; [by apply lookup_app_l_Some|done].
  - eapply frozen_ext; [|exact Hbs|exact Hst]. split.
    + exists cells. cbn [board_store log_sent matched].
      split; [by apply lookup_app_l_Some|done].
    + cbn [player_store log_sent matched]. intros p P HP HPb. exists P. split; [|done].
      apply paired_lookup_other; [|done]. intros ->. congruence.
  - eapply frozen_ext; [|exact Hbs|exact Hst]. split.
    + cbn [board_store log_sent with_board]. by eapply frozen_write.
    + intros i X HX HXb. by exists X.
  - eapply frozen_ext; [|exact Hbs|exact Hst].
    pose proof Hacc as (_ & HP & _ & HPb & Hcells0 & Hm & Hopp & HQ).
    destruct (wf_pair s Hwf p0 P0 q0 HP Hopp)
      as (_ & Q1 & b1 & HQ1 & _ & _ & HPb1 & HQb & _ & HsP & _).
    assert (Q1 = Q0) as -> by congruence. assert (b1 = b0) as -> by congruence.
    destruct (decide (b0 = b)) as [->|Hbb].
    + exfalso.
      destruct (frozen_write cells s ws cell p0 q0 P0 Q0 b cells0 cells0' Hwf Hb Hfin Hacc)
        as (c' & Hc' & (w' & Hw' & Htr') & _).
      rewrite list_lookup_insert_eq in Hc' by (by apply lookup_lt_Some in Hb).
      injection Hc' as <-. congruence.
    + split.
      * exists cells. cbn. by rewrite list_lookup_insert_ne.
      * intros i X HX HXb. exists X. cbn. split; [|done].
        rewrite turns_lookup by done. rewrite HX. cbn.
        rewrite retimed_other; [done| |]; intros ->; congruence.
Qed.

Lemma frozen_run inputs : ∀ cells s,
  wf s → board_store s !! b = Some cells → finished cells →
  frozen b cells s (run s inputs).
Proof.
  induction inputs as [|i inputs IH]; intros cells s Hwf Hb Hfin.
  - by apply frozen_same.
  - simpl.
    pose proof (frozen_step cells s (step s i) Hwf (step_store_change s i Hwf) Hb Hfin)
      as Hfr.
    pose proof Hfr as [(cells1 & Hb1 & Hfin1 & _) _].
    eapply frozen_trans; [exact Hb1|exact Hfr|].
    apply IH; [by apply wf_step|done..].
Qed.
End Frozen.

(** C2 (as the code has it).  Once a board is finished (it has a winning
    triple or is full), then after any further inputs: the board is still
    finished; a full board is unchanged; the turn flags of the players on
    that board are what they were, so no turn-toggle happens any more; and
    every [move] from the player on that board whose flag is false is
    answered with "Not your turn" and changes nothing but the log. *)
Theorem finished_match_is_frozen s b cells inputs :
  reachable s →
  board_store s !! b = Some cells →
  finished cells →
  (∃ cells', board_store (run s inputs) !! b = Some cells' ∧ finished cells' ∧
             (GameBoard.is_draw cells = true → cells' = cells)) ∧
  (∀ p P, player_store s !! p = Some P → game_board P = Some b →
          ∃ P', player_store (run s inputs) !! p = Some P' ∧
                game_board P' = Some b ∧ is_my_turn P' = is_my_turn P) ∧
  (∀ ws p P cell,
     ws ∈ active_connections (run s inputs) →
     players (run s inputs) !! ws = Some p →
     player_store (run s inputs) !! p = Some P →
     game_board P = Some b → is_my_turn P = false →
     step (run s inputs) (Receive ws (Move cell))
     = log_sent [(ws, MError "Not your turn")] (run s inputs)).
Proof.
  intros Hwf%reachable_wf Hb Hfin.
  destruct (frozen_run b inputs cells s Hwf Hb Hfin) as [Hboard Hflags].
  split; [done|]. split; [done|].
  intros ws p P cell Hin Hreg HP _ Ht.
  apply step_receive_ok; [done|]. by eapply (on_move_not_turn _ ws (CellInt cell)).
Qed.

Lemma finished_match_is_frozen_witness :
  reachable x_wins ∧
  board_store x_wins !! 0 = Some ["X"; "X"; "X"; "O"; "O"; " "; " "; " "; " "] ∧
  finished ["X"; "X"; "X"; "O"; "O"; " "; " "; " "; " "] ∧
  ∃ P', player_store (run x_wins [Receive 2 (Move 5); Receive 1 (Move 6)]) !! 0
        = Some P' ∧ is_my_turn P' = false.
Proof.
  assert (finished ["X"; "X"; "X"; "O"; "O"; " "; " "; " "; " "]) as Hfin.
  { exists (Some "X"). split; vm_compute; reflexivity. }
  split; [exact reachable_x_wins|]. split; [vm_compute; reflexivity|].
  split; [exact Hfin|].
  destruct (finished_match_is_frozen x_wins 0
              ["X"; "X"; "X"; "O"; "O"; " "; " "; " "; " "]
              [Receive 2 (Move 5); Receive 1 (Move 6)])
    as (_ & Hflags & _).
  - exact reachable_x_wins.
  - vm_compute; reflexivity.
  - exact Hfin.
  - destruct (Hflags 0 (mkPlayer 1 "alice" "O" false (Some 1) (Some 0)))
      as (P' & HP' & _ & Ht); [vm_compute; reflexivity|reflexivity|].
    exists P'. split; [exact HP'|exact Ht].
Defined.

(** C2 as stated fails: X has won and both players have been sent
    [gameover]; X then plays cell 5, the move is accepted, the board
    changes, and the move and a second [gameover] are sent instead of an
    error. *)
Lemma move_after_gameover_is_accepted :
  board_store x_wins = [["X"; "X"; "X"; "O"; "O"; " "; " "; " "; " "]] ∧
  GameBoard.get_winner ["X"; "X"; "X"; "O"; "O"; " "; " "; " "; " "] = Ok (Some "X") ∧
  drop 21 (sent x_wins) = [(2, MGameover "X"); (1, MGameover "X")] ∧
  board_store (step x_wins (Receive 2 (Move 5)))
  = [["X"; "X"; "X"; "O"; "O"; "X"; " "; " "; " "]] ∧
  board_store (step x_wins (Receive 2 (Move 5))) ≠ board_store x_wins ∧
  drop 23 (sent (step x_wins (Receive 2 (Move 5))))
  = [(2, MMove 5 "X"); (1, MMove 5 "X"); (2, MGameover "X"); (1, MGameover "X")].
Proof.
  repeat split; try (vm_compute; reflexivity). vm_compute. discriminate.
Qed.

(** * The scenarios, run *)

Example first_move_is_broadcast :
  drop 3 (sent (step match_started (Receive 2 (Move 0))))
  = [(2, MMove 0 "X"); (1, MMove 0 "X"); (2, MTurn false); (1, MTurn true)].
Proof. vm_compute. reflexivity. Qed.

Example move_out_of_turn_is_refused :
  drop 7 (sent (run match_started [Receive 2 (Move 0); Receive 2 (Move 1)]))
  = [(2, MError "Not your turn")].
Proof. vm_compute. reflexivity. Qed.

Example occupied_cell_is_refused :
  drop 7 (sent (run match_started [Receive 2 (Move 0); Receive 1 (Move 0)]))
  = [(1, MError "Invalid move")].
Proof. vm_compute. reflexivity. Qed.

Example full_board_without_line_is_draw :
  GameBoard.get_winner ["X"; "O"; "X"; "X"; "O"; "O"; "O"; "X"; "X"]
  = Ok (Some "draw").
Proof. vm_compute. reflexivity. Qed.

Example open_board_has_no_result :
  GameBoard.get_winner ["X"; "O"; " "; " "; " "; " "; " "; " "; " "] = Ok None.
Proof. vm_compute. reflexivity. Qed.

(** alice's connection has closed; bob, on turn, plays cell 0.  The cell is
    written and bob is told; the send to alice raises, so the turn does not
    pass and bob's loop ends. *)
Example move_to_departed_opponent :
  board_store (step alice_gone (Receive 2 (Move 0)))
  = [["X"; " "; " "; " "; " "; " "; " "; " "; " "]] ∧
  drop 3 (sent (step alice_gone (Receive 2 (Move 0)))) = [(2, MMove 0 "X")] ∧
  is_my_turn <$> player_store (step alice_gone (Receive 2 (Move 0))) !! 1 = Some true ∧
  2 ∉ active_connections (step alice_gone (Receive 2 (Move 0))).
Proof. repeat split; try (vm_compute; reflexivity). by vm_compute. Qed.

(** A boolean under "cell" is used as the subscript 1 and passed on as it
    came. *)
Example boolean_cell_is_a_subscript :
  board_store (step match_started (Receive 2 (MoveBool true)))
  = [[" "; "X"; " "; " "; " "; " "; " "; " "; " "]] ∧
  drop 3 (sent (step match_started (Receive 2 (MoveBool true))))
  = [(2, MMoveAs (CellBool true) "X"); (1, MMoveAs (CellBool true) "X");
     (2, MTurn false); (1, MTurn true)].
Proof. split; vm_compute; reflexivity. Qed.

(** Events that lack a key end the loop without a word: one without a type,
    a [join] without a nickname, and, from the player on turn, a [move]
    without a cell. *)
Example events_lacking_a_key_end_the_loop :
  step match_started (Receive 1 NoType) = disconnect 1 match_started ∧
  step alice_waits (Receive 1 JoinNoNickname) = disconnect 1 alice_waits ∧
  step match_started (Receive 2 MoveNoCell) = disconnect 2 match_started ∧
  step match_started (Receive 1 MoveNoCell)
  = log_sent [(1, MError "Not your turn")] match_started.
Proof. repeat split; vm_compute; reflexivity. Qed.

(** * Further properties of the board *)

Lemma py_index_None len i :
  py_index len i = None ↔ (i < - Z.of_nat len ∨ Z.of_nat len ≤ i)%Z.
Proof.
  split; [|apply py_index_out].
  unfold py_index. repeat case_bool_decide; try done. lia.
Qed.

Lemma py_index_lookup {A} (l : list A) i n :
  py_index (length l) i = Some n → is_Some (l !! n).
Proof. intros H%py_index_lt. by apply lookup_lt_is_Some_2. Qed.

Lemma make_move_blank (cells : list string) (position : Z) (sym : string) n :
  py_index (length cells) position = Some n → cells !! n = Some " " →
  GameBoard.make_move cells position sym = Ok (<[n := sym]> cells).
Proof.
  intros Hn Hc. unfold GameBoard.make_move, getitem, setitem. rewrite Hn, Hc.
  by rewrite bool_decide_eq_false_2 by (by intros []).
Qed.


(** X1.  The three answers of [make_move], by position and cell content:
    [IndexError] exactly for a position below [-len] or from [len] on,
    [InvalidMoveException] exactly for an addressable cell that is not
    blank, and success exactly for an addressable blank cell, in which case
    the new cells are the old ones with that one cell set to the symbol. *)
Theorem make_move_outcomes (cells : list string) (position : Z) (sym : string) :
  (GameBoard.make_move cells position sym = Raise IndexError ↔
   (position < - Z.of_nat (length cells) ∨ Z.of_nat (length cells) ≤ position)%Z) ∧
  (GameBoard.make_move cells position sym = Raise InvalidMoveException ↔
   ∃ n c, py_index (length cells) position = Some n ∧ cells !! n = Some c ∧ c ≠ " ") ∧
  (∀ cells', GameBoard.make_move cells position sym = Ok cells' ↔
   ∃ n, py_index (length cells) position = Some n ∧ cells !! n = Some " " ∧
        cells' = <[n := sym]> cells).
Proof.
  rewrite <- py_index_None.
  unfold GameBoard.make_move, getitem, setitem.
  destruct (py_index (length cells) position) as [n|] eqn:Hn.
  - destruct (py_index_lookup cells position n Hn) as [c Hc]. rewrite Hc.
    case_bool_decide as Hne.
    + split; [done|]. split.
      * split; [intros _; by exists n, c|done].
      * intros cells'. split; [done|]. intros (m & [= <-] & Hm & _). congruence.
    + assert (c = " ") as -> by (destruct (decide (c = " ")); [done|by destruct Hne]).
      split; [done|]. split.
      * split; [done|]. intros (m & c & [= <-] & Hm & Hc'). congruence.
      * intros cells'. split.
        -- intros [= <-]. by exists n.
        -- intros (m & [= <-] & _ & ->). done.
  - split; [done|]. split.
    + split; [done|]. by intros (m & c & ? & _).
    + intros cells'. split; [done|]. by intros (m & ? & _).
Qed.

(** X2.  A negative position in [-len .. -1] addresses the same cell as
    that position plus [len]: [make_move] gives the same answer for both. *)
Theorem make_move_negative_position (cells : list string) (position : Z) (sym : string) :
  (- Z.of_nat (length cells) ≤ position < 0)%Z →
  GameBoard.make_move cells position sym
  = GameBoard.make_move cells (position + Z.of_nat (length cells)) sym.
Proof.
  intros H. unfold GameBoard.make_move, getitem, setitem.
  rewrite (py_index_back _ _ H), py_index_front by lia. done.
Qed.

Lemma make_move_negative_position_witness :
  (- Z.of_nat (length GameBoard.init) ≤ -1 < 0)%Z ∧
  GameBoard.make_move GameBoard.init (-1) "X"
  = Ok [" "; " "; " "; " "; " "; " "; " "; " "; "X"].
Proof.
  split; [vm_compute; split; [discriminate|reflexivity]|].
  rewrite (make_move_negative_position GameBoard.init (-1) "X").
  - vm_compute. reflexivity.
  - vm_compute. split; [discriminate|reflexivity].
Defined.

Lemma count_mark_insert (s old new : string) (cells : list string) (n : nat) :
  cells !! n = Some old →
  count_mark s (<[n := new]> cells) + (if bool_decide (old = s) then 1 else 0)
  = count_mark s cells + (if bool_decide (new = s) then 1 else 0).
Proof.
  revert n. induction cells as [|c rest IH]; intros [|n] Hn; simpl in *; try done.
  - injection Hn as ->. lia.
  - specialize (IH n Hn). lia.
Qed.

(** X3.  A successful [make_move] with a non-blank symbol uses up exactly
    one blank cell, keeps the number of cells, and leaves every cell that
    already held something as it was. *)
Theorem make_move_fills_one_blank (cells cells' : list string) (position : Z)
    (sym : string) :
  GameBoard.make_move cells position sym = Ok cells' →
  sym ≠ " " →
  length cells' = length cells ∧
  count_mark " " cells = S (count_mark " " cells') ∧
  count_mark sym cells' = S (count_mark sym cells) ∧
  (∀ i c, cells !! i = Some c → c ≠ " " → cells' !! i = Some c).
Proof.
  intros Hm Hsym. pose proof Hm as (n & _ & Hn & ->)%make_move_Ok.
  split; [apply length_insert|]. split; [|split].
  - pose proof (count_mark_insert " " " " sym cells n Hn) as H.
    rewrite bool_decide_eq_true_2, bool_decide_eq_false_2 in H by done. lia.
  - pose proof (count_mark_insert sym " " sym cells n Hn) as H.
    rewrite bool_decide_eq_false_2, bool_decide_eq_true_2 in H by done. lia.
  - intros i c Hc Hne. rewrite list_lookup_insert_ne; [done|]. intros ->. congruence.
Qed.

Lemma make_move_fills_one_blank_witness :
  GameBoard.make_move ["X"; " "; "O"; " "; " "; " "; " "; " "; " "] 4 "X"
  = Ok ["X"; " "; "O"; " "; "X"; " "; " "; " "; " "] ∧
  count_mark " " ["X"; " "; "O"; " "; " "; " "; " "; " "; " "]
  = S (count_mark " " ["X"; " "; "O"; " "; "X"; " "; " "; " "; " "]).
Proof.
  split; [vm_compute; reflexivity|].
  apply (make_move_fills_one_blank _ _ 4%Z "X"); [vm_compute; reflexivity|discriminate].
Defined.

(** Check a literal board cell by cell. *)
Ltac cells_ok :=
  repeat (apply Forall_cons_2; [unfold cell_ok; auto|]); apply Forall_nil_2.

Lemma cell_ok_mark (cells : list string) i s :
  Forall cell_ok cells → cells !! i = Some s → s ≠ " " → mark_ok s.
Proof.
  intros Hok Hs Hne. rewrite Forall_lookup in Hok.
  destruct (Hok i s Hs) as [->|H]; [done|exact H].
Qed.

Lemma get_winner_answers (cells : list string) :
  length cells = 9 → Forall cell_ok cells →
  ∃ w, GameBoard.get_winner cells = Ok w ∧
       (w = None ∨ w = Some "X" ∨ w = Some "O" ∨ w = Some "draw").
Proof.
  intros Hlen Hok. unfold GameBoard.get_winner.
  pose proof (winning_combinations_in_range cells Hlen) as Hr.
  destruct (scan_total cells _ Hr) as [[s|] Hscan]; rewrite Hscan.
  - destruct (scan_Some_won _ _ _ Hr Hscan) as (t & _ & Hne & H1 & _).
    destruct (cell_ok_mark cells _ s Hok H1 Hne) as [-> | ->]; eauto 6.
  - destruct (GameBoard.is_draw cells); eauto 6.
Qed.

Lemma get_winner_mark_owned (cells : list string) s :
  length cells = 9 → Forall cell_ok cells →
  GameBoard.get_winner cells = Ok (Some s) → s ≠ "draw" →
  ∃ t, t ∈ GameBoard.winning_combinations ∧ triple_owned cells t s.
Proof.
  intros Hlen Hok. unfold GameBoard.get_winner.
  pose proof (winning_combinations_in_range cells Hlen) as Hr.
  destruct (scan_total cells _ Hr) as [[s0|] Hscan]; rewrite Hscan.
  - intros [= <-] _. by eapply scan_Some_won.
  - destruct (GameBoard.is_draw cells); [|done]. by intros [= <-].
Qed.

(** X4.  On a board of nine cells that are each blank, X or O,
    [get_winner] never raises and answers [None], "X", "O" or "draw". *)
Theorem get_winner_values (cells : list string) :
  length cells = 9 → Forall cell_ok cells →
  GameBoard.get_winner cells = Ok None ∨
  GameBoard.get_winner cells = Ok (Some "X") ∨
  GameBoard.get_winner cells = Ok (Some "O") ∨
  GameBoard.get_winner cells = Ok (Some "draw").
Proof.
  intros Hlen Hok.
  destruct (get_winner_answers cells Hlen Hok) as (w & -> & [->|[->|[->| ->]]]); auto.
Qed.

Lemma get_winner_values_witness :
  length ["X"; "O"; "X"; "X"; "O"; "O"; "O"; "X"; "X"] = 9 ∧
  (GameBoard.get_winner ["X"; "O"; "X"; "X"; "O"; "O"; "O"; "X"; "X"] = Ok None ∨
   GameBoard.get_winner ["X"; "O"; "X"; "X"; "O"; "O"; "O"; "X"; "X"] = Ok (Some "X") ∨
   GameBoard.get_winner ["X"; "O"; "X"; "X"; "O"; "O"; "O"; "X"; "X"] = Ok (Some "O") ∨
   GameBoard.get_winner ["X"; "O"; "X"; "X"; "O"; "O"; "O"; "X"; "X"] = Ok (Some "draw")).
Proof.
  split; [reflexivity|]. apply get_winner_values; [reflexivity|cells_ok].
Defined.

(** X5.  The answer of [get_winner] tells the truth about the board (nine
    cells, each blank, X or O): a mark is announced only if one of the
    eight triples is filled with it, "draw" only if the board is full and
    no triple is won, and [None] only if a blank is left and no triple is
    won. *)
Theorem get_winner_sound (cells : list string) :
  length cells = 9 → Forall cell_ok cells →
  (∀ s, GameBoard.get_winner cells = Ok (Some s) → s ≠ "draw" →
        ∃ t, t ∈ GameBoard.winning_combinations ∧ triple_owned cells t s) ∧
  (GameBoard.get_winner cells = Ok (Some "draw") →
   all_occupied cells ∧
   ∀ t, t ∈ GameBoard.winning_combinations → ¬ triple_won cells t) ∧
  (GameBoard.get_winner cells = Ok None →
   ¬ all_occupied cells ∧
   ∀ t, t ∈ GameBoard.winning_combinations → ¬ triple_won cells t).
Proof.
  intros Hlen Hok. unfold GameBoard.get_winner.
  pose proof (winning_combinations_in_range cells Hlen) as Hr.
  destruct (scan_total cells _ Hr) as [[s0|] Hscan]; rewrite Hscan.
  - destruct (scan_Some_won _ _ _ Hr Hscan) as (t & Ht & Hown).
    split; [intros s [= <-] _; eauto|].
    pose proof Hown as (Hne & H1 & _).
    split; [|done]. intros [= ->].
    by destruct (cell_ok_mark cells _ _ Hok H1 Hne).
  - assert (∀ t, t ∈ GameBoard.winning_combinations → ¬ triple_won cells t) as Hnone.
    { intros t Ht Hwon. destruct (scan_won_Some _ _ _ Hr Ht Hwon) as [s Hs]. congruence. }
    destruct (GameBoard.is_draw cells) eqn:Hd.
    + split; [by intros s [= <-]|]. split; [|done].
      intros _. split; [by apply is_draw_iff|done].
    + split; [done|]. split; [done|]. intros _. split; [|done].
      intros Hfull%is_draw_iff. congruence.
Qed.

Lemma get_winner_sound_witness :
  length ["O"; "O"; " "; "X"; "X"; "X"; " "; " "; " "] = 9 ∧
  ∃ t, t ∈ GameBoard.winning_combinations ∧
       triple_owned ["O"; "O"; " "; "X"; "X"; "X"; " "; " "; " "] t "X".
Proof.
  split; [reflexivity|].
  destruct (get_winner_sound ["O"; "O"; " "; "X"; "X"; "X"; " "; " "; " "])
    as (Hmark & _).
  - reflexivity.
  - cells_ok.
  - apply (Hmark "X"); [vm_compute; reflexivity|discriminate].
Defined.

(** X11.  On an undecided board, a move that decides the game is announced
    as a win of the symbol just placed or as a draw, never as a win of the
    other symbol. *)
Theorem deciding_move_is_movers (cells cells' : list string) (position : Z)
    (sym s : string) :
  length cells = 9 → Forall cell_ok cells → mark_ok sym →
  ¬ finished cells →
  GameBoard.make_move cells position sym = Ok cells' →
  GameBoard.get_winner cells' = Ok (Some s) →
  s = sym ∨ s = "draw".
Proof.
  intros Hlen Hok Hsym Hnot Hm Hw.
  destruct (make_move_cells_ok cells (CellInt position) sym cells' Hlen Hok Hsym Hm)
    as [Hlen' Hok'].
  destruct (decide (s = "draw")) as [->|Hnd]; [by right|left].
  destruct (get_winner_mark_owned cells' s Hlen' Hok' Hw Hnd)
    as (t & Ht & Hne & H1 & H2 & H3).
  apply make_move_Ok in Hm as (n & _ & Hn & ->).
  pose proof (lookup_lt_Some _ _ _ Hn) as Hlt.
  destruct (decide (n = Z.to_nat t.1.1)) as [->|N1].
  { rewrite list_lookup_insert_eq in H1 by done. congruence. }
  destruct (decide (n = Z.to_nat t.1.2)) as [->|N2].
  { rewrite list_lookup_insert_eq in H2 by done. congruence. }
  destruct (decide (n = Z.to_nat t.2)) as [->|N3].
  { rewrite list_lookup_insert_eq in H3 by done. congruence. }
  rewrite list_lookup_insert_ne in H1, H2, H3 by done.
  destruct Hnot. apply finished_intro; [done|done|].
  left. exists t. split; [done|]. by exists s.
Qed.

Lemma deciding_move_is_movers_witness :
  ¬ finished ["X"; "X"; " "; "O"; "O"; " "; " "; " "; " "] ∧
  GameBoard.make_move ["X"; "X"; " "; "O"; "O"; " "; " "; " "; " "] 2 "X"
  = Ok ["X"; "X"; "X"; "O"; "O"; " "; " "; " "; " "] ∧
  ("X" = "X" ∨ "X" = "draw").
Proof.
  assert (¬ finished ["X"; "X"; " "; "O"; "O"; " "; " "; " "; " "]) as Hnot.
  { intros (w & Hw & Htr). vm_compute in Hw. injection Hw as <-. discriminate. }
  split; [exact Hnot|]. split; [vm_compute; reflexivity|].
  apply (deciding_move_is_movers
           ["X"; "X"; " "; "O"; "O"; " "; " "; " "; " "]
           ["X"; "X"; "X"; "O"; "O"; " "; " "; " "; " "] 2%Z "X" "X").
  - reflexivity.
  - cells_ok.
  - by left.
  - exact Hnot.
  - vm_compute. reflexivity.
  - vm_compute. reflexivity.
Defined.

(** * Invariants of runs *)

(** X6.  The waiting queue never holds more than one player, and a player
    in it is unpaired, has no board and does not have the turn. *)
Theorem queue_holds_at_most_one s :
  reachable s →
  length (waiting_players s) ≤ 1 ∧
  ∀ w, w ∈ waiting_players s →
    ∃ W, player_store s !! w = Some W ∧ opponent W = None ∧
         game_board W = None ∧ is_my_turn W = false.
Proof.
  intros Hwf%reachable_wf. split; [by apply wf_queue_len|].
  intros w Hw. destruct (wf_queue s Hwf w Hw) as (W & HW & HWo).
  destruct (wf_single s Hwf w W HW HWo) as [Ht Hb]. by exists W.
Qed.

Lemma queue_holds_at_most_one_witness :
  reachable alice_waits ∧ length (waiting_players alice_waits) ≤ 1.
Proof.
  split; [exact reachable_alice_waits|].
  exact (proj1 (queue_holds_at_most_one alice_waits reachable_alice_waits)).
Defined.

(** X7.  A player object keeps its websocket and nickname for ever, and once
    it is paired it also keeps its symbol, its opponent and its board:
    whatever the server receives afterwards, nobody is re-paired or given
    another symbol. *)
Theorem pairing_is_permanent s p P inputs :
  reachable s →
  player_store s !! p = Some P →
  ∃ P', player_store (run s inputs) !! p = Some P' ∧
        websocket P' = websocket P ∧ nickname P' = nickname P ∧
        (is_Some (opponent P) →
         symbol P' = symbol P ∧ opponent P' = opponent P ∧
         game_board P' = game_board P).
Proof.
  intros Hwf%reachable_wf. revert s P Hwf.
  induction inputs as [|i inputs IH]; intros s P Hwf HP.
  - by exists P.
  - simpl.
    destruct (step_keeps_player s (step s i) p P Hwf (step_store_change s i Hwf) HP)
      as (P1 & HP1 & Hws1 & Hn1 & Hpair1).
    destruct (IH (step s i) P1 (wf_step s i Hwf) HP1) as (P2 & HP2 & Hws2 & Hn2 & Hpair2).
    exists P2. split; [done|]. split; [congruence|]. split; [congruence|].
    intros Hsome. destruct (Hpair1 Hsome) as (Hs & Ho & Hb).
    destruct Hpair2 as (Hs2 & Ho2 & Hb2); [by rewrite Ho|].
    repeat split; congruence.
Qed.

Lemma pairing_is_permanent_witness :
  reachable match_started ∧
  ∃ P', player_store x_wins !! 0 = Some P' ∧
        symbol P' = "O" ∧ opponent P' = Some 1 ∧ game_board P' = Some 0.
Proof.
  split; [exact reachable_match_started|].
  assert (player_store match_started !! 0
          = Some (mkPlayer 1 "alice" "O" false (Some 1) (Some 0))) as HP
    by (vm_compute; reflexivity).
  destruct (pairing_is_permanent match_started 0 _
              [Receive 2 (Move 0); Receive 1 (Move 3); Receive 2 (Move 1);
               Receive 1 (Move 4); Receive 2 (Move 2)]
              reachable_match_started HP)
    as (P' & HP' & _ & _ & Hkeep).
  destruct Hkeep as (Hs & Ho & Hb); [by eexists|].
  exists P'. split; [exact HP'|]. split; [exact Hs|]. split; [exact Ho|exact Hb].
Defined.

(** What a step keeps of a board: it stays in the store with the same number
    of cells, and every cell that held a mark holds it still. *)
Lemma step_keeps_marks s s' b cells :
  wf s → store_change s s' → board_store s !! b = Some cells →
  ∃ cells', board_store s' !! b = Some cells' ∧ length cells' = length cells ∧
            ∀ i c, cells !! i = Some c → c ≠ " " → cells' !! i = Some c.
Proof.
  intros Hwf Hch Hb.
  assert (∀ ws cell p q P Q b0 cells0 cells0',
            accepts ws cell p q P Q b0 cells0 cells0' s →
            ∃ cells', <[b0 := cells0']> (board_store s) !! b = Some cells' ∧
                      length cells' = length cells ∧
                      ∀ i c, cells !! i = Some c → c ≠ " " → cells' !! i = Some c)
    as Hwrite.
  { intros ws cell p q P Q b0 cells0 cells0' (_ & HP & _ & _ & Hc0 & Hm & Hopp & _).
    destruct (decide (b0 = b)) as [->|Hbb].
    - assert (cells0 = cells) as -> by congruence.
      pose proof Hm as (z & n & _ & _ & Hn & ->)%make_move_with_Ok.
      eexists. split; [apply list_lookup_insert_eq; by apply lookup_lt_Some in Hb|].
      split; [apply length_insert|].
      intros i c Hc Hne. rewrite list_lookup_insert_ne; [done|]. intros ->. congruence.
    - exists cells. by rewrite list_lookup_insert_ne. }
  destruct Hch as [ (_&_&_&Hbs&_)
                  | ws m _ (_&_&_&Hbs&_)
                  | ws nick Hq (_&_&_&Hbs&_)
                  | ws nick o O turn msgs Hq HO HOo _ _ _ (_&_&_&Hbs&_)
                  | ws cell p0 q P0 Q b0 cells0 cells0' msgs Hacc _ _ (_&_&_&Hbs&_)
                  | ws cell p0 q P0 Q b0 cells0 cells0' w Hacc _ _ _ (_&_&_&Hbs&_) ];
    rewrite Hbs; cbn [board_store log_sent with_board with_turns parked matched].
  - by exists cells.
  - by exists cells.
  - by exists cells.
  - exists cells. split; [by apply lookup_app_l_Some|done].
  - by eapply Hwrite.
  - by eapply Hwrite.
Qed.

(** X14.  A mark once placed is never changed or removed: in every later
    state the board is still there with the same number of cells, and each
    cell that held X or O holds it still. *)
Theorem marks_are_permanent s b cells inputs :
  reachable s →
  board_store s !! b = Some cells →
  ∃ cells', board_store (run s inputs) !! b = Some cells' ∧
            length cells' = length cells ∧
            ∀ i c, cells !! i = Some c → c ≠ " " → cells' !! i = Some c.
Proof.
  intros Hwf%reachable_wf. revert s cells Hwf.
  induction inputs as [|i inputs IH]; intros s cells Hwf Hb.
  - by exists cells.
  - simpl.
    destruct (step_keeps_marks s (step s i) b cells Hwf (step_store_change s i Hwf) Hb)
      as (cells1 & Hb1 & Hlen1 & Hkeep1).
    destruct (IH (step s i) cells1 (wf_step s i Hwf) Hb1) as (cells2 & Hb2 & Hlen2 & Hkeep2).
    exists cells2. split; [done|]. split; [congruence|]. eauto.
Qed.

Lemma marks_are_permanent_witness :
  reachable x_wins ∧
  ∃ cells', board_store (run x_wins [Receive 2 (Move 5)]) !! 0 = Some cells' ∧
            cells' !! 3 = Some "O".
Proof.
  split; [exact reachable_x_wins|].
  assert (board_store x_wins !! 0
          = Some ["X"; "X"; "X"; "O"; "O"; " "; " "; " "; " "]) as Hb0
    by (vm_compute; reflexivity).
  destruct (marks_are_permanent x_wins 0 _ [Receive 2 (Move 5)] reachable_x_wins Hb0)
    as (cells' & Hb & _ & Hkeep).
  exists cells'. split; [exact Hb|]. apply Hkeep; [reflexivity|discriminate].
Defined.

Lemma py_index_range len i n :
  py_index len i = Some n → (- Z.of_nat len ≤ i < Z.of_nat len)%Z.
Proof. unfold py_index. repeat case_bool_decide; intros; simplify_eq; lia. Qed.

Lemma get_winner_truthy_values cells w :
  length cells = 9 → Forall cell_ok cells →
  GameBoard.get_winner cells = Ok w → truthy w = true →
  default "" w = "X" ∨ default "" w = "O" ∨ default "" w = "draw".
Proof.
  intros Hlen Hok Hw Htr.
  destruct (get_winner_answers cells Hlen Hok) as (w' & Hw' & Hcase).
  assert (w' = w) as -> by congruence.
  destruct Hcase as [->|[->|[->| ->]]]; cbn; auto. done.
Qed.

(** The [move] event of an accepted move names a cell from -9 to 8, or
    carries a boolean. *)
Lemma move_event_of_accepted_ok s ws cell p q P Q b cells cells' :
  wf s → accepts ws cell p q P Q b cells cells' s →
  message_ok (move_event cell (symbol P)).
Proof.
  intros Hwf (_ & HP & _ & _ & Hc & Hm & Hopp & _).
  destruct (wf_boards s Hwf b cells Hc) as [Hlen _].
  destruct (wf_pair s Hwf p P q HP Hopp) as (_ & ? & ? & _ & _ & _ & _ & _ & _ & HsP & _).
  apply make_move_with_Ok in Hm as (z & n & Hz & Hn%py_index_range & _).
  rewrite Hlen in Hn. destruct cell as [z'|b'| |]; simplify_eq/=.
  - split; [lia|done].
  - split; [by eexists|done].
Qed.

Lemma sent_step s s' :
  wf s → store_change s s' →
  Forall (λ wm, message_ok wm.2) (sent s) →
  Forall (λ wm, message_ok wm.2) (sent s').
Proof.
  intros Hwf Hch Hok.
  destruct Hch as [ (_&_&_&_&Hs)
                  | ws m Hm (_&_&_&_&Hs)
                  | ws nick Hq (_&_&_&_&Hs)
                  | ws nick o O turn msgs Hq HO HOo HOt HOb Hlog (_&_&_&_&Hs)
                  | ws cell p0 q P0 Q b0 cells0 cells0' msgs Hacc Hne Hlog (_&_&_&_&Hs)
                  | ws cell p0 q P0 Q b0 cells0 cells0' w Hacc Hne Hw Htr (_&_&_&_&Hs) ];
    rewrite Hs; cbn [sent log_sent with_board with_turns parked matched]; try done.
  - apply Forall_app. split; [done|]. apply Forall_cons_2; [|done]. cbn.
    destruct Hm as [->|[->|[type ->]]]; cbn; eauto.
  - apply Forall_app. split; [done|].
    destruct Hlog as [[_ ->]|[_ ->]];
      repeat apply Forall_cons_2; cbn; unfold mark_ok; auto.
  - pose proof (move_event_of_accepted_ok _ _ _ _ _ _ _ _ _ _ Hwf Hacc) as Hmv.
    apply Forall_app. split; [done|].
    destruct Hlog as [->|(w & Hw & Htr & ->)].
    + by repeat apply Forall_cons_2.
    + destruct (accepts_cells_ok _ _ _ _ _ _ _ _ _ _ Hwf Hacc) as [Hlen' Hok'].
      pose proof (get_winner_truthy_values _ _ Hlen' Hok' Hw Htr) as Hres.
      repeat apply Forall_cons_2; cbn; auto.
  - pose proof (move_event_of_accepted_ok _ _ _ _ _ _ _ _ _ _ Hwf Hacc) as Hmv.
    apply Forall_app. split; [done|]. repeat apply Forall_cons_2; cbn; auto.
Qed.

(** X13.  Everything the server ever sends has one of the shapes the
    endpoint builds: an "Unknown message type:" text; an [error] that is
    "Not your turn" or "Invalid move"; a [start] with symbol X or O; a
    [turn]; a [move] with symbol X or O and a cell between -9 and 8 (or the
    boolean the client sent in its place); a [gameover] whose result is "X",
    "O" or "draw". *)
Theorem sent_messages_are_well_formed s :
  reachable s →
  ∀ ws m, (ws, m) ∈ sent s → message_ok m.
Proof.
  intros [inputs ->].
  assert (∀ s0, wf s0 → Forall (λ wm, message_ok wm.2) (sent s0) →
                Forall (λ wm, message_ok wm.2) (sent (run s0 inputs))) as Hrun.
  { induction inputs as [|i inputs IH]; intros s0 Hwf Hok; [done|].
    simpl. apply IH; [by apply wf_step|].
    eapply sent_step; [done|by apply step_store_change|done]. }
  intros ws m Hin.
  pose proof (Hrun initial wf_initial (Forall_nil_2 _)) as Hall.
  rewrite Forall_forall in Hall. by apply (Hall (ws, m)).
Qed.

Lemma sent_messages_are_well_formed_witness :
  reachable x_wins ∧ message_ok (MGameover "X").
Proof.
  split; [exact reachable_x_wins|].
  apply (sent_messages_are_well_formed x_wins reachable_x_wins 1).
  apply list_elem_of_lookup. exists 22. vm_compute. reflexivity.
Defined.

(** * What single events do *)

Lemma step_move_any s ws data c :
  ws ∈ active_connections s → move_cell data = Some c →
  step s (Receive ws data)
  = match on_move ws c s with
    | (s', Ok _) => s'
    | (s', Raise _) => disconnect ws s'
    end.
Proof.
  intros Hin Hc. cbn [step]. rewrite decide_True by done.
  destruct data; cbn [move_cell] in Hc; try done; injection Hc as <-; reflexivity.
Qed.

(** A [move] leaves the queue and the dict alone and creates no object. *)
Lemma move_outcome_sizes s ws c s' r :
  move_outcome s ws c (s', r) →
  active_connections s' = active_connections s ∧
  waiting_players s' = waiting_players s ∧ players s' = players s ∧
  length (player_store s') = length (player_store s) ∧
  length (board_store s') = length (board_store s).
Proof.
  inversion 1; subst s' r; cbn; rewrite ?length_insert, ?length_alter; done.
Qed.




(** X9.  A [move] is local to its match.  Whatever its outcome, it leaves
    the queue and the dict alone, creates no object, changes no board other
    than the sender's, and changes no player record other than the sender's
    and the opponent's. *)
Theorem move_is_local s ws cell p P q b :
  reachable s →
  ws ∈ active_connections s →
  players s !! ws = Some p → player_store s !! p = Some P →
  opponent P = Some q → game_board P = Some b →
  waiting_players (step s (Receive ws (Move cell))) = waiting_players s ∧
  players (step s (Receive ws (Move cell))) = players s ∧
  length (player_store (step s (Receive ws (Move cell)))) = length (player_store s) ∧
  length (board_store (step s (Receive ws (Move cell)))) = length (board_store s) ∧
  (∀ b', b' ≠ b →
     board_store (step s (Receive ws (Move cell))) !! b' = board_store s !! b') ∧
  (∀ i, i ≠ p → i ≠ q →
     player_store (step s (Receive ws (Move cell))) !! i = player_store s !! i).
Proof.
  intros Hwf%reachable_wf Hin Hreg HP Hopp Hb.
  destruct (step_move_cases s ws cell Hwf Hin) as (s' & r & Hmo & ->).
  inversion Hmo as [ Hreg' | p' P' Hreg' HP' Ht | p' P' b' cells Hreg' HP' Ht Hb' Hc Hm
                   | p' P' b' cells e Hreg' HP' Ht Hb' Hc Hm He
                   | p' q' P' Q b' cells cells' Hacc Hne Hws HinQ
                   | p' q' P' Q b' cells cells' w Hacc Hne Hws HinQ Hw Htr
                   | p' q' P' Q b' cells cells' w Hacc Hne Hws HinQ Hw Htr ]; subst s' r;
    try (by repeat split).
  - destruct Hacc as (Hreg' & HP' & _ & Hb' & _ & _ & Hopp' & _).
    assert (p' = p) as -> by congruence. assert (P' = P) as -> by congruence.
    assert (b' = b) as -> by congruence.
    cbn. rewrite length_insert. repeat split; try done.
    intros b1 Hb1. by rewrite list_lookup_insert_ne.
  - destruct Hacc as (Hreg' & HP' & _ & Hb' & _ & _ & Hopp' & _).
    assert (p' = p) as -> by congruence. assert (P' = P) as -> by congruence.
    assert (b' = b) as -> by congruence.
    cbn. rewrite length_insert. repeat split; try done.
    intros b1 Hb1. by rewrite list_lookup_insert_ne.
  - destruct Hacc as (Hreg' & HP' & _ & Hb' & _ & _ & Hopp' & _).
    assert (p' = p) as -> by congruence. assert (P' = P) as -> by congruence.
    assert (b' = b) as -> by congruence. assert (q' = q) as -> by congruence.
    cbn. rewrite length_insert, !length_alter. repeat split; try done.
    + intros b1 Hb1. by rewrite list_lookup_insert_ne.
    + intros i Hip Hiq. by rewrite !list_lookup_alter_ne.
Qed.

Lemma move_is_local_witness :
  reachable match_started ∧ 2 ∈ active_connections match_started ∧
  length (board_store (step match_started (Receive 2 (Move 4)))) = 1.
Proof.
  assert (2 ∈ active_connections match_started) as Hin by (by vm_compute).
  split; [exact reachable_match_started|]. split; [exact Hin|].
  destruct (move_is_local match_started 2 4%Z 1
              (mkPlayer 2 "bob" "X" true (Some 0) (Some 0)) 0 0
              reachable_match_started Hin)
    as (_ & _ & _ & Hlen & _).
  - vm_compute. reflexivity.
  - vm_compute. reflexivity.
  - reflexivity.
  - reflexivity.
  - exact Hlen.
Defined.

(** X10.  An accepted move.  When the player on turn names a blank cell
    0..8, the cell is written with the player's symbol and the move is sent
    to the player's own connection.  If the opponent's connection is open,
    the move is sent there too; then, if [get_winner] on the new board
    answers a result, that result is sent to both as [gameover] and the turn
    flags stay, and otherwise the flags are exchanged and each side is sent
    its new [turn] value.  If the opponent's connection is closed, the send
    to it raises: the cell stays written, the turn does not pass, nothing
    more is sent and the mover's loop ends. *)
Theorem accepted_move s ws cell p P q Q b cells :
  reachable s →
  ws ∈ active_connections s →
  players s !! ws = Some p → player_store s !! p = Some P →
  is_my_turn P = true →
  opponent P = Some q → player_store s !! q = Some Q →
  game_board P = Some b → board_store s !! b = Some cells →
  (0 ≤ cell < 9)%Z → cells !! Z.to_nat cell = Some " " →
  (websocket Q ∈ active_connections s →
   ∃ w, GameBoard.get_winner (<[Z.to_nat cell := symbol P]> cells) = Ok w ∧
        step s (Receive ws (Move cell)) =
        if truthy w then
          log_sent [(ws, MMove cell (symbol P)); (websocket Q, MMove cell (symbol P));
                    (ws, MGameover (default "" w));
                    (websocket Q, MGameover (default "" w))]
            (with_board b (<[Z.to_nat cell := symbol P]> cells) s)
        else
          log_sent [(ws, MMove cell (symbol P)); (websocket Q, MMove cell (symbol P));
                    (ws, MTurn false); (websocket Q, MTurn true)]
            (with_turns p q (with_board b (<[Z.to_nat cell := symbol P]> cells) s))) ∧
  (websocket Q ∉ active_connections s →
   step s (Receive ws (Move cell)) =
   disconnect ws
     (log_sent [(ws, MMove cell (symbol P))]
        (with_board b (<[Z.to_nat cell := symbol P]> cells) s))).
Proof.
  intros Hwf%reachable_wf Hin Hreg HP Ht Hopp HQ Hb Hc Hrange Hblank.
  destruct (wf_boards s Hwf b cells Hc) as [Hlen Hok].
  destruct (wf_players s Hwf ws p Hreg) as (P1 & HP1 & Hws & _).
  assert (P1 = P) as -> by congruence.
  destruct (wf_pair s Hwf p P q HP Hopp)
    as (Hne & ? & ? & _ & _ & _ & _ & _ & _ & HsP & _).
  assert (make_move_with cells (CellInt cell) (symbol P)
          = Ok (<[Z.to_nat cell := symbol P]> cells)) as Hm.
  { apply make_move_blank; [|done]. apply py_index_front. rewrite Hlen. lia. }
  destruct (make_move_cells_ok _ _ _ _ Hlen Hok HsP Hm) as [Hlen' Hok'].
  assert (accepts ws (CellInt cell) p q P Q b cells (<[Z.to_nat cell := symbol P]> cells) s)
    as Hacc by (by repeat split).
  assert (websocket P ∈ active_connections s) as HinP by (by rewrite Hws).
  split.
  - intros HinQ. destruct (get_winner_total _ Hlen') as [w Hw].
    exists w. split; [done|].
    apply step_receive_ok; [done|]. cbn [on_data].
    destruct (truthy w) eqn:Htr.
    + erewrite on_move_gameover by done. by rewrite Hws.
    + erewrite on_move_continue by done. by rewrite Hws.
  - intros HinQ. eapply step_receive_raise; [done|]. cbn [on_data].
    erewrite on_move_unheard by done. by rewrite Hws.
Qed.

Lemma accepted_move_witness :
  reachable match_started ∧ 2 ∈ active_connections match_started ∧
  step match_started (Receive 2 (Move 4))
  = log_sent [(2, MMove 4 "X"); (1, MMove 4 "X"); (2, MTurn false); (1, MTurn true)]
      (with_turns 1 0
         (with_board 0 [" "; " "; " "; " "; "X"; " "; " "; " "; " "] match_started)).
Proof.
  assert (2 ∈ active_connections match_started) as Hin by (by vm_compute).
  split; [exact reachable_match_started|]. split; [exact Hin|].
  destruct (accepted_move match_started 2 4%Z 1
              (mkPlayer 2 "bob" "X" true (Some 0) (Some 0)) 0
              (mkPlayer 1 "alice" "O" false (Some 1) (Some 0)) 0
              [" "; " "; " "; " "; " "; " "; " "; " "; " "]
              reachable_match_started Hin)
    as [Hopen _].
  - vm_compute. reflexivity.
  - vm_compute. reflexivity.
  - reflexivity.
  - reflexivity.
  - vm_compute. reflexivity.
  - reflexivity.
  - vm_compute. reflexivity.
  - lia.
  - reflexivity.
  - destruct Hopen as (w & Hw & Hstep); [by vm_compute|].
    vm_compute in Hw. injection Hw as <-. exact Hstep.
Defined.

(** X16.  Only a [join] touches the queue or the dict or creates an object:
    every other input leaves [waiting_players] and [players] as they are and
    the two stores at their size. *)
Theorem only_join_touches_queue s i :
  reachable s →
  (∀ ws nick, i ≠ Receive ws (Join nick)) →
  waiting_players (step s i) = waiting_players s ∧
  players (step s i) = players s ∧
  length (player_store (step s i)) = length (player_store s) ∧
  length (board_store (step s i)) = length (board_store s).
Proof.
  intros Hwf%reachable_wf Hnj. destruct i as [ws|ws data|ws].
  - done.
  - destruct (decide (ws ∈ active_connections s)) as [Hin|Hout];
      [|simpl; by rewrite decide_False].
    destruct (move_cell data) as [c|] eqn:Hmc.
    + rewrite (step_move_any s ws data c Hin Hmc).
      pose proof (on_move_outcome s ws c Hwf Hin) as Hmo.
      destruct (on_move ws c s) as [s' r].
      destruct (move_outcome_sizes _ _ _ _ _ Hmo) as (_ & ? & ? & ? & ?).
      by destruct r as [[]|e].
    + destruct data as [nick|cell|type|cell| | | | ]; try done.
      * by destruct (Hnj ws nick).
      * cbn [step on_data]. rewrite decide_True by done.
        unfold send_message. by rewrite send_open.
      * cbn [step on_data]. by rewrite decide_True.
      * cbn [step on_data]. by rewrite decide_True.
  - simpl. by case_decide.
Qed.

Lemma only_join_touches_queue_witness :
  reachable alice_waits ∧
  waiting_players (step alice_waits (Receive 1 (Move 0))) = [0].
Proof.
  split; [exact reachable_alice_waits|].
  destruct (only_join_touches_queue alice_waits (Receive 1 (Move 0))
              reachable_alice_waits) as (Hq & _); [discriminate|].
  rewrite Hq. reflexivity.
Defined.

(** X17.  Two joins make a match.  From a state with nobody waiting, a
    [join] from one active connection followed by a [join] from another
    empties the queue again and leaves two new player objects paired with
    each other on a new blank board: the first joiner as O without the turn,
    the second as X with the turn, each registered under its connection. *)
Theorem two_joins_make_a_match s ws1 nick1 ws2 nick2 :
  waiting_players s = [] →
  ws1 ∈ active_connections s → ws2 ∈ active_connections s →
  let s2 := run s [Receive ws1 (Join nick1); Receive ws2 (Join nick2)] in
  let n := length (player_store s) in
  let b := length (board_store s) in
  waiting_players s2 = [] ∧
  player_store s2 !! n = Some (mkPlayer ws1 nick1 "O" false (Some (S n)) (Some b)) ∧
  player_store s2 !! S n = Some (mkPlayer ws2 nick2 "X" true (Some n) (Some b)) ∧
  board_store s2 !! b = Some GameBoard.init ∧
  players s2 !! ws1 = Some n ∧
  (ws1 ≠ ws2 → players s2 !! ws2 = Some (S n)) ∧
  sent s2 = sent s ++ [(ws2, MStart "X" nick1); (ws1, MStart "O" nick2);
                       (ws2, MTurn true)].
Proof.
  intros Hq Hin1 Hin2. cbv zeta. unfold run. cbn [foldl].
  rewrite (step_join_wait s ws1 nick1) by done.
  erewrite (step_join_pair (parked ws1 nick1 s) ws2 nick2 (length (player_store s))
              (mkPlayer ws1 nick1 "" false None None) []); last first.
  { done. }
  { cbn. by apply list_lookup_middle. }
  { cbn. by rewrite Hq. }
  { done. }
  unfold paired, matched, log_sent, parked.
  cbn [waiting_players players player_store board_store sent websocket nickname
       is_my_turn].
  rewrite Hq. cbn [app tail]. rewrite !length_app. cbn [length].
  replace (length (player_store s) + 1) with (S (length (player_store s))) by lia.
  repeat split.
  - rewrite lookup_app_l by (rewrite length_insert, length_app; simpl; lia).
    apply list_lookup_insert_eq. rewrite length_app. simpl. lia.
  - rewrite lookup_app_r by (rewrite length_insert, length_app; simpl; lia).
    rewrite length_insert, length_app. cbn [length].
    by replace (S (length (player_store s)) - (length (player_store s) + 1)) with 0 by lia.
  - by apply list_lookup_middle.
  - apply lookup_insert_eq.
  - intros Hne. rewrite lookup_insert_ne by done. apply lookup_insert_eq.
Qed.

Lemma two_joins_make_a_match_witness :
  waiting_players two_connected = [] ∧
  1 ∈ active_connections two_connected ∧ 2 ∈ active_connections two_connected ∧
  player_store (run two_connected [Receive 1 (Join "alice"); Receive 2 (Join "bob")])
  !! 1 = Some (mkPlayer 2 "bob" "X" true (Some 0) (Some 0)) ∧
  players (run two_connected [Receive 1 (Join "alice"); Receive 2 (Join "bob")])
  !! 2 = Some 1.
Proof.
  assert (1 ∈ active_connections two_connected) as Hin1 by (by vm_compute).
  assert (2 ∈ active_connections two_connected) as Hin2 by (by vm_compute).
  split; [reflexivity|]. split; [exact Hin1|]. split; [exact Hin2|].
  destruct (two_joins_make_a_match two_connected 1 "alice" 2 "bob" eq_refl Hin1 Hin2)
    as (_ & _ & HX & _ & _ & Hreg & _).
  split; [exact HX|]. by apply Hreg.
Defined.

(** X15.  Connecting and then disconnecting a connection that was not
    active leaves the server exactly as it was. *)
Theorem connect_then_close s ws :
  ws ∉ active_connections s →
  step (step s (Connect ws)) (Close ws) = s.
Proof.
  intros Hout. simpl. rewrite decide_True by (cbn; set_solver).
  unfold disconnect, connect. destruct s as [ac wq pl st bs sn]. cbn in *.
  f_equal. apply set_eq. intros x.
  rewrite elem_of_difference, elem_of_union, !elem_of_singleton.
  split; [tauto|]. intros Hx. split; [by right|]. intros ->. done.
Qed.

Lemma connect_then_close_witness :
  (7 ∉ active_connections match_started) ∧
  step (step match_started (Connect 7)) (Close 7) = match_started.
Proof.
  assert (7 ∉ active_connections match_started) as Hout by (by vm_compute).
  split; [exact Hout|]. exact (connect_then_close match_started 7 Hout).
Defined.

(** * Matches and their boards *)

Lemma store_change_board_length s s' :
  store_change s s' →
  length (board_store s') = length (board_store s) ∨
  (∃ turn ws nick o O, board_store s' = board_store (matched turn ws nick o O s) ∧
                       player_store s' = player_store (matched turn ws nick o O s) ∧
                       player_store s !! o = Some O).
Proof.
  intros [ (_&_&_&Hbs&_)
         | ws m _ (_&_&_&Hbs&_)
         | ws nick Hq (_&_&_&Hbs&_)
         | ws nick o O turn msgs Hq HO HOo HOt HOb _ (_&_&Hst&Hbs&_)
         | ws cell p0 q P0 Q b0 cells0 cells0' msgs Hacc Hne _ (_&_&_&Hbs&_)
         | ws cell p0 q P0 Q b0 cells0 cells0' w Hacc Hne Hw Htr (_&_&_&Hbs&_) ];
    try (left; rewrite Hbs; cbn; by rewrite ?length_insert).
  right. by exists turn, ws, nick, o, O.
Qed.

Lemma boards_are_owned_step s s' :
  wf s → boards_are_owned s → store_change s s' → boards_are_owned s'.
Proof.
  intros Hwf Hown Hch b Hb.
  assert (b < length (board_store s) →
          ∃ p P, player_store s' !! p = Some P ∧ game_board P = Some b) as Hold.
  { intros Hlt. destruct (Hown b Hlt) as (p & P & HP & HPb).
    destruct (step_keeps_player s s' p P Hwf Hch HP) as (P' & HP' & _ & _ & Hkeep).
    exists p, P'. split; [done|].
    destruct (opponent P) as [q|] eqn:Hopp.
    - destruct Hkeep as (_ & _ & ->); [by eexists|done].
    - destruct (wf_single s Hwf p P HP Hopp). congruence. }
  destruct (store_change_board_length s s' Hch)
    as [Hlen|(turn & ws & nick & o & O & Hbs & Hst & HO)].
  - apply Hold. by rewrite <- Hlen.
  - rewrite Hbs in Hb. unfold matched in Hb. cbn in Hb.
    rewrite length_app in Hb. cbn in Hb.
    destruct (decide (b < length (board_store s))) as [Hlt|Hge]; [by apply Hold|].
    assert (b = length (board_store s)) as -> by lia.
    exists (length (player_store s)). eexists. rewrite Hst. unfold matched. cbn.
    split; [apply paired_lookup_new|done].
Qed.

Lemma reachable_boards_are_owned s : reachable s → boards_are_owned s.
Proof.
  intros [inputs ->].
  assert (∀ s0, wf s0 → boards_are_owned s0 → boards_are_owned (run s0 inputs)) as Hrun.
  { induction inputs as [|i inputs IH]; intros s0 Hwf Hown; [done|].
    simpl. apply IH; [by apply wf_step|].
    eapply boards_are_owned_step; [done|done|by apply step_store_change]. }
  apply Hrun; [apply wf_initial|]. intros b Hb. cbn in Hb. lia.
Qed.

(** X18.  Every board belongs to exactly one match of exactly two players:
    two different player objects that name each other as opponent hold it,
    and no third player object does. *)
Theorem every_board_has_two_players s b :
  reachable s →
  b < length (board_store s) →
  ∃ p q P Q,
    p ≠ q ∧
    player_store s !! p = Some P ∧ player_store s !! q = Some Q ∧
    game_board P = Some b ∧ game_board Q = Some b ∧
    opponent P = Some q ∧ opponent Q = Some p ∧
    ∀ i X, player_store s !! i = Some X → game_board X = Some b → i = p ∨ i = q.
Proof.
  intros Hr Hb. pose proof (reachable_wf s Hr) as Hwf.
  destruct (reachable_boards_are_owned s Hr b Hb) as (p & P & HP & HPb).
  destruct (opponent P) as [q|] eqn:Hopp; last first.
  { destruct (wf_single s Hwf p P HP Hopp). congruence. }
  destruct (wf_pair s Hwf p P q HP Hopp)
    as (Hne & Q & b' & HQ & HQo & _ & HPb' & HQb & _).
  assert (b' = b) as -> by congruence.
  exists p, q, P, Q. repeat split; try done.
  intros i X HX HXb.
  destruct (wf_share s Hwf p P i X b HP HX HPb HXb) as [->|Hi]; [by left|right].
  congruence.
Qed.

Lemma every_board_has_two_players_witness :
  reachable match_started ∧ 0 < length (board_store match_started) ∧
  ∃ p q, p ≠ q ∧ is_Some (player_store match_started !! p) ∧
         is_Some (player_store match_started !! q).
Proof.
  assert (0 < length (board_store match_started)) as Hlt by (vm_compute; lia).
  split; [exact reachable_match_started|]. split; [exact Hlt|].
  destruct (every_board_has_two_players match_started 0 reachable_match_started Hlt)
    as (p & q & P & Q & Hne & HP & HQ & _).
  exists p, q. split; [exact Hne|]. split; by eexists.
Defined.

(** * At most one symbol completes a triple *)

Lemma owned_after_insert (cells : list string) n sym0 t sym :
  cells !! n = Some " " →
  triple_owned (<[n := sym0]> cells) t sym →
  sym = sym0 ∨ triple_owned cells t sym.
Proof.
  intros Hn (Hne & H1 & H2 & H3). pose proof (lookup_lt_Some _ _ _ Hn) as Hlt.
  destruct (decide (n = Z.to_nat t.1.1)) as [->|N1].
  { rewrite list_lookup_insert_eq in H1 by done. left. congruence. }
  destruct (decide (n = Z.to_nat t.1.2)) as [->|N2].
  { rewrite list_lookup_insert_eq in H2 by done. left. congruence. }
  destruct (decide (n = Z.to_nat t.2)) as [->|N3].
  { rewrite list_lookup_insert_eq in H3 by done. left. congruence. }
  rewrite list_lookup_insert_ne in H1, H2, H3 by done. by right.
Qed.

Lemma init_blank i c : GameBoard.init !! i = Some c → c = " ".
Proof. unfold GameBoard.init. by intros [-> _]%lookup_replicate. Qed.

Lemma winner_keeps_turn_ext s s' :
  player_store s' = player_store s → board_store s' = board_store s →
  winner_keeps_turn s → winner_keeps_turn s'.
Proof. intros Hst Hbs H. unfold winner_keeps_turn. by rewrite Hst, Hbs. Qed.

Lemma winner_keeps_turn_parked s ws nick :
  winner_keeps_turn s → winner_keeps_turn (parked ws nick s).
Proof.
  intros Hinv b cells t sym Hb Ht Hown.
  destruct (Hinv b cells t sym Hb Ht Hown) as (p & P & HP & Hrest).
  exists p, P. split; [by apply lookup_app_l_Some|done].
Qed.

Lemma winner_keeps_turn_matched turn s ws nick o O :
  wf s → winner_keeps_turn s →
  player_store s !! o = Some O → game_board O = None →
  winner_keeps_turn (matched turn ws nick o O s).
Proof.
  intros Hwf Hinv HO HOb b cells t sym Hcells Ht Hown.
  unfold matched in Hcells |- *. cbn [player_store board_store] in Hcells |- *.
  apply lookup_snoc_Some in Hcells as [[_ Hcells]|[_ <-]].
  - destruct (Hinv b cells t sym Hcells Ht Hown) as (p & P & HP & HPb & Hrest).
    exists p, P. split; [|done].
    apply paired_lookup_other; [|done]. intros ->. congruence.
  - destruct Hown as (Hne & H1 & _).
    by apply (init_blank (Z.to_nat t.1.1) sym) in H1.
Qed.

Lemma winner_keeps_turn_write s ws cell p q P Q b0 cells0 cells0' :
  winner_keeps_turn s →
  accepts ws cell p q P Q b0 cells0 cells0' s →
  winner_keeps_turn (with_board b0 cells0' s).
Proof.
  intros Hinv (_ & HP & HPt & HPb & Hc0 & Hm & Hopp & HQ) b cells t sym Hcells Ht Hown.
  unfold with_board in Hcells |- *. cbn [player_store board_store] in Hcells |- *.
  apply list_lookup_insert_Some in Hcells as [(-> & -> & _)|[Hbb Hcells]];
    [|by apply (Hinv b cells t)].
  apply make_move_with_Ok in Hm as (z & n & _ & _ & Hn & ->).
  destruct (owned_after_insert _ _ _ _ _ Hn Hown) as [->|Hold].
  - by exists p, P.
  - by apply (Hinv b cells0 t).
Qed.

Lemma winner_keeps_turn_toggle s ws cell p q P Q b0 cells0 cells0' w :
  wf s → winner_keeps_turn s →
  accepts ws cell p q P Q b0 cells0 cells0' s → p ≠ q →
  GameBoard.get_winner cells0' = Ok w → truthy w = false →
  winner_keeps_turn (with_turns p q (with_board b0 cells0' s)).
Proof.
  intros Hwf Hinv Hacc Hne Hw Htr b cells t sym Hcells Ht Hown.
  destruct (accepts_cells_ok _ _ _ _ _ _ _ _ _ _ Hwf Hacc) as [Hlen' Hok'].
  destruct Hacc as (_ & HP & HPt & HPb & Hc0 & Hm & Hopp & HQ).
  unfold with_turns, with_board in Hcells |- *.
  cbn [player_store board_store] in Hcells |- *.
  destruct (wf_pair s Hwf p P q HP Hopp)
    as (_ & Q1 & b1 & HQ1 & _ & _ & HPb1 & HQb & _).
  assert (Q1 = Q) as -> by congruence. assert (b1 = b0) as -> by congruence.
  apply list_lookup_insert_Some in Hcells as [(-> & -> & _)|[Hbb Hcells]].
  - exfalso.
    destruct (finished_intro cells Hlen' Hok') as (w' & Hw' & Htr').
    { left. exists t. split; [done|]. by exists sym. }
    congruence.
  - destruct (Hinv b cells t sym Hcells Ht Hown) as (i & X & HX & HXb & HXt & HXs).
    exists i, X. rewrite turns_lookup, HX by done. cbn.
    rewrite retimed_other; [done| |]; intros ->; congruence.
Qed.

Lemma winner_keeps_turn_step s s' :
  wf s → winner_keeps_turn s → store_change s s' → winner_keeps_turn s'.
Proof.
  intros Hwf Hinv Hch.
  destruct Hch as [ (_&_&Hst&Hbs&_)
                  | ws m _ (_&_&Hst&Hbs&_)
                  | ws nick Hq (_&_&Hst&Hbs&_)
                  | ws nick o O turn msgs Hq HO HOo HOt HOb _ (_&_&Hst&Hbs&_)
                  | ws cell p0 q P0 Q b0 cells0 cells0' msgs Hacc Hne _ (_&_&Hst&Hbs&_)
                  | ws cell p0 q P0 Q b0 cells0 cells0' w Hacc Hne Hw Htr (_&_&Hst&Hbs&_) ];
    eapply (winner_keeps_turn_ext _ _ Hst Hbs).
  - done.
  - done.
  - by apply winner_keeps_turn_parked.
  - eapply (winner_keeps_turn_ext (matched turn ws nick o O s)); [done|done|].
    by apply winner_keeps_turn_matched.
  - eapply (winner_keeps_turn_ext (with_board b0 cells0' s)); [done|done|].
    by eapply winner_keeps_turn_write.
  - eapply (winner_keeps_turn_ext (with_turns p0 q (with_board b0 cells0' s)));
      [done|done|].
    by eapply winner_keeps_turn_toggle.
Qed.

Lemma reachable_winner_keeps_turn s : reachable s → winner_keeps_turn s.
Proof.
  intros [inputs ->].
  assert (∀ s0, wf s0 → winner_keeps_turn s0 → winner_keeps_turn (run s0 inputs))
    as Hrun.
  { induction inputs as [|i inputs IH]; intros s0 Hwf Hinv; [done|].
    simpl. apply IH; [by apply wf_step|].
    eapply winner_keeps_turn_step; [done|done|by apply step_store_change]. }
  apply Hrun; [apply wf_initial|].
  intros b cells t sym Hb. cbn in Hb. by destruct b.
Qed.

(** X19.  On a board the server can reach, all completed triples belong to
    one symbol, and [get_winner] announces exactly that symbol: the order in
    which the eight triples are scanned makes no difference. *)
Theorem one_symbol_wins s b cells t sym :
  reachable s →
  board_store s !! b = Some cells →
  t ∈ GameBoard.winning_combinations →
  triple_owned cells t sym →
  GameBoard.get_winner cells = Ok (Some sym) ∧
  ∀ t' sym', t' ∈ GameBoard.winning_combinations →
             triple_owned cells t' sym' → sym' = sym.
Proof.
  intros Hr Hb Ht Hown. pose proof (reachable_wf s Hr) as Hwf.
  pose proof (reachable_winner_keeps_turn s Hr) as Hinv.
  assert (∀ t' sym', t' ∈ GameBoard.winning_combinations →
            triple_owned cells t' sym' → sym' = sym) as Huniq.
  { intros t' sym' Ht' Hown'.
    destruct (Hinv b cells t sym Hb Ht Hown) as (p & P & HP & HPb & HPt & <-).
    destruct (Hinv b cells t' sym' Hb Ht' Hown') as (p' & P' & HP' & HPb' & HPt' & <-).
    destruct (wf_share s Hwf p P p' P' b HP HP' HPb HPb') as [->|Hopp]; [congruence|].
    destruct (wf_pair s Hwf p P p' HP Hopp) as (_ & Q & ? & HQ & _ & Hnb & _).
    assert (Q = P') as -> by congruence. rewrite (Hnb HPt) in HPt'. done. }
  split; [|done].
  destruct (wf_boards s Hwf b cells Hb) as [Hlen Hok].
  pose proof (winning_combinations_in_range cells Hlen) as Hrange.
  destruct (scan_won_Some cells _ t Hrange Ht) as [s0 Hscan]; [by exists sym|].
  destruct (scan_Some_won _ _ _ Hrange Hscan) as (t0 & Ht0 & Hown0).
  unfold GameBoard.get_winner. rewrite Hscan. by rewrite (Huniq t0 s0 Ht0 Hown0).
Qed.

Lemma one_symbol_wins_witness :
  reachable x_wins ∧
  GameBoard.get_winner ["X"; "X"; "X"; "O"; "O"; " "; " "; " "; " "] = Ok (Some "X").
Proof.
  split; [exact reachable_x_wins|].
  apply (one_symbol_wins x_wins 0 _ (0, 1, 2)%Z "X" reachable_x_wins).
  - vm_compute. reflexivity.
  - left.
  - repeat split; done.
Defined.

(** X20.  A full board refuses every move.  Once all nine cells of a
    player's board are occupied, a [move] from that player to any position
    from -9 to 8 is answered with "Invalid move" if the player has the turn
    and with "Not your turn" otherwise, and changes nothing else. *)
Theorem full_board_refuses_every_move s ws cell p P b cells :
  ws ∈ active_connections s →
  players s !! ws = Some p → player_store s !! p = Some P →
  game_board P = Some b → board_store s !! b = Some cells →
  GameBoard.is_draw cells = true →
  (- Z.of_nat (length cells) ≤ cell < Z.of_nat (length cells))%Z →
  step s (Receive ws (Move cell)) =
    log_sent [(ws, MError (if is_my_turn P then "Invalid move" else "Not your turn"))] s.
Proof.
  intros Hin Hreg HP Hb Hc Hdraw Hrange.
  apply step_receive_ok; [done|]. cbn [on_data].
  destruct (is_my_turn P) eqn:Ht; [|by eapply on_move_not_turn].
  eapply on_move_invalid; try done.
  destruct (py_index (length cells) cell) as [n|] eqn:Hn; last first.
  { apply py_index_None in Hn. lia. }
  destruct (py_index_lookup cells cell n Hn) as [c Hcn].
  eapply make_move_occupied; [done|done|].
  apply is_draw_iff in Hdraw. by apply (Hdraw n).
Qed.

Lemma full_board_refuses_every_move_witness :
  2 ∈ active_connections drawn ∧
  board_store drawn !! 0 = Some ["X"; "O"; "X"; "X"; "O"; "O"; "O"; "X"; "X"] ∧
  step drawn (Receive 2 (Move (-3))) = log_sent [(2, MError "Invalid move")] drawn.
Proof.
  assert (2 ∈ active_connections drawn) as Hin by (by vm_compute).
  assert (board_store drawn !! 0 = Some ["X"; "O"; "X"; "X"; "O"; "O"; "O"; "X"; "X"])
    as Hb by (vm_compute; reflexivity).
  split; [exact Hin|]. split; [exact Hb|].
  apply (full_board_refuses_every_move drawn 2 (-3)%Z 1
           (mkPlayer 2 "bob" "X" true (Some 0) (Some 0)) 0
           ["X"; "O"; "X"; "X"; "O"; "O"; "O"; "X"; "X"] Hin).
  - vm_compute. reflexivity.
  - vm_compute. reflexivity.
  - reflexivity.
  - exact Hb.
  - vm_compute. reflexivity.
  - vm_compute. split; [discriminate|reflexivity].
Defined.
